(** * The visit counter service of [src/index.ts]

    A shallow embedding of the counter service: the [Visit] collection of
    the document store, the [visitCache] in front of it, the helper
    [updateVisitCount], the start-up routine [initializeDatabase], the
    [/readiness] and [/api/visit] routes and the error-handling middleware.

    Modelling conventions.
    - A count is a JavaScript [number] that holds an integer: an element of
      [Z], incremented with the rounding of double precision ([js_incr]):
      exact below [2^53], stalling or jumping by two above.
    - The store is the list of the documents of the collection in natural
      order; [findOne()] yields the first one.
    - The cache is a finite map from keys to entries carrying the value and
      the absolute expiry time in milliseconds; a read drops the expired
      entry it meets.  The timer that sweeps expired entries every
      [checkperiod] seconds runs between calls and is not part of them.
    - Every library call that the source awaits is an effect: the model
      threads the world (store and cache) explicitly, collects the calls
      that were issued in a trace, and propagates a thrown [Error].
    - What the environment decides (the clock readings of the two cache
      calls and whether a store call fails) is gathered in [Env].
    - [updateVisitCount] and [initializeDatabase] are given twice: as one
      uninterrupted call (the monadic definitions) and as tasks that are
      suspended at each [await] and resumed by a scheduler ([resume],
      [schedule]); [visit_uninterrupted] and [init_uninterrupted] relate
      the two. *)

From Stdlib Require Import ZArith String List Sorted Lia.
From stdpp Require Import gmap strings list.

Open Scope Z_scope.

(** ** JavaScript values *)

(** [!x] on a number: zero is falsy, every other integer is truthy. *)
Definition truthy (n : Z) : bool := negb (n =? 0).

(** [2^53]: from here on doubles are spaced by two or more. *)
Definition two53 : Z := 9007199254740992.

(** [x + 1] on a double that holds the integer [x], rounded to nearest,
    ties to even.  From [-2^53] up to [2^53 - 1] the sum is exact.  Outside
    that range a double is even: where the spacing is two, [x + 1] lies
    halfway between [x] and [x + 2] and the neighbour with the even
    significand wins ([x] when [x / 2] is even, [x + 2] otherwise); where
    the spacing is four or more, [x / 2] is even and the sum rounds back
    to [x]. *)
Definition js_incr (x : Z) : Z :=
  if (- two53 <=? x) && (x <? two53) then x + 1
  else if Z.odd (x / 2) then x + 2
  else x.

(** Round to nearest, ties to even, at 53 significant bits, for a
    non-negative integer: [e] low bits are dropped once the number needs
    more than 53. *)
Definition round_magnitude (a : Z) : Z :=
  let e := Z.max 0 (Z.log2 a - 52) in
  let q := a / 2 ^ e in
  let r := a mod 2 ^ e in
  (if 2 * r <? 2 ^ e then q
   else if 2 ^ e <? 2 * r then q + 1
   else if Z.even q then q else q + 1) * 2 ^ e.

(** The double nearest to the integer [z]. *)
Definition round53 (z : Z) : Z := Z.sgn z * round_magnitude (Z.abs z).

(** The integers that doubles hold. *)
Definition double_int (z : Z) : Prop := Z.abs z < 2 ^ 1024 ∧ round53 z = z.

(** An [Error] object, with the two fields the program reads. *)
Record Error : Type := mkError { message : string; stack : string }.

(** [a || b] on strings: the empty string is falsy. *)
Definition or_else (a b : string) : string :=
  match a with
  | EmptyString => b
  | _ => a
  end.

(** ** The cache: [new NodeCache({ stdTTL: 600, checkperiod: 120 })] *)

Module NodeCache.

Definition stdTTL : Z := 600.
Definition checkperiod : Z := 120.

(** A stored value [v] and its expiry time [t] in milliseconds
    ([0] stands for an entry that never expires). *)
Record Entry : Type := mkEntry { v : Z; t : Z }.

(** An entry is expired once its expiry time is behind the clock. *)
Definition expired (now : Z) (e : Entry) : bool :=
  negb (t e =? 0) && (t e <? now).

(** [cache.get(key)]: the value of a live entry, [undefined] ([None])
    for a missing or an expired one, and the cache afterwards: an expired
    entry is deleted by the read that meets it. *)
Definition get (now : Z) (key : string) (c : gmap string Entry)
    : option Z * gmap string Entry :=
  match c !! key with
  | Some e => if expired now e then (None, delete key c) else (Some (v e), c)
  | None => (None, c)
  end.

(** [cache.set(key, value)]: overwrite with the standard time-to-live. *)
Definition set (now : Z) (key : string) (value : Z)
    (c : gmap string Entry) : gmap string Entry :=
  <[key := {| v := value; t := now + stdTTL * 1000 |}]> c.

End NodeCache.

(** ** The store: the [Visit] collection *)

(** A persisted document: its [_id] and the schema's single field. *)
Record Row : Type := mkRow { row_id : nat; row_count : Z }.

(** A hydrated document ([IVisit]): [isNew] is set until the first save,
    [isModified] once [count] was given a value other than the loaded one. *)
Record IVisit : Type := mkVisit {
  oid : nat;
  count : Z;
  isNew : bool;
  isModified : bool
}.

(** An identifier that no document of the collection carries. *)
Definition fresh_oid (rows : list Row) : nat :=
  S (fold_right Nat.max O (map row_id rows)).

(** [updateOne({_id: id}, {$set: {count: n}})]: the first match is changed. *)
Fixpoint updateOne (id : nat) (n : Z) (rows : list Row) : list Row :=
  match rows with
  | [] => []
  | r :: rest =>
      if Nat.eqb (row_id r) id
      then {| row_id := id; row_count := n |} :: rest
      else r :: updateOne id n rest
  end.

(** [insertOne]: the new document goes last in natural order. *)
Definition insertOne (id : nat) (n : Z) (rows : list Row) : list Row :=
  rows ++ [{| row_id := id; row_count := n |}].

(** The document [findOne()] hydrates from a stored one. *)
Definition hydrate (r : Row) : IVisit :=
  {| oid := row_id r; count := row_count r; isNew := false; isModified := false |}.

(** [new Visit({ count: n })] with the identifier [id] drawn for it. *)
Definition construct (id : nat) (n : Z) : IVisit :=
  {| oid := id; count := n; isNew := true; isModified := true |}.

(** [visit.count += 1]: the path is marked modified when the value moves. *)
Definition incremented (d : IVisit) : IVisit :=
  {| oid := oid d;
     count := js_incr (count d);
     isNew := isNew d;
     isModified := isModified d || negb (js_incr (count d) =? count d) |}.

(** What [save()] does to the collection: an insert for a new document,
    an update by [_id] for a modified one, nothing for an unmodified one. *)
Definition stored (d : IVisit) (rows : list Row) : list Row :=
  if isNew d then insertOne (oid d) (count d) rows
  else if isModified d then updateOne (oid d) (count d) rows
  else rows.

(** ** World, environment, trace *)

Record World : Type := mkWorld {
  visits : list Row;
  visitCache : gmap string NodeCache.Entry
}.

Definition set_visits (rows : list Row) (w : World) : World :=
  {| visits := rows; visitCache := visitCache w |}.

Definition set_visitCache (c : gmap string NodeCache.Entry) (w : World) : World :=
  {| visits := visits w; visitCache := c |}.

(** The choices of the environment during one call. *)
Record Env : Type := mkEnv {
  now_get : Z;                    (* clock at [visitCache.get] *)
  now_set : Z;                    (* clock at [visitCache.set] *)
  findOne_fault : option Error;   (* [Visit.findOne()] rejects *)
  save_fault : option Error;      (* [visit.save()] rejects *)
  create_fault : option Error     (* [Visit.create()] rejects *)
}.

Inductive Level : Type := info | error.

Inductive Body : Type :=
| JsonStatus (status : string)
| JsonVisit (visitCount : Z)
| JsonError (err : string).

Record Response : Type := mkResponse { status : Z; body : Body }.

(** The calls a run issues, in order.  [StoreExists] is the check that
    [save()] makes for a document it has nothing to write for. *)
Inductive Event : Type :=
| CacheGet (key : string)
| CacheSet (key : string) (value : Z)
| StoreFindOne
| StoreInsert (id : nat) (n : Z)
| StoreUpdate (id : nat) (n : Z)
| StoreExists (id : nat)
| Log (level : Level) (text : string)
| Respond (r : Response).

(** The store call behind [save()]. *)
Definition write_event (d : IVisit) : Event :=
  if isNew d then StoreInsert (oid d) (count d)
  else if isModified d then StoreUpdate (oid d) (count d)
  else StoreExists (oid d).

(** ** The effect monad: state, exceptions and a trace *)

Inductive Result (A : Type) : Type :=
| Ok (a : A)
| Throw (e : Error).
Arguments Ok {A} a.
Arguments Throw {A} e.

Definition M (A : Type) : Type := World → Result A * World * list Event.

#[global] Instance M_ret : MRet M := λ A a w, (Ok a, w, []).

#[global] Instance M_bind : MBind M := λ A B k m w,
  match m w with
  | (Ok a, w1, tr1) =>
      match k a w1 with
      | (r, w2, tr2) => (r, w2, tr1 ++ tr2)
      end
  | (Throw e, w1, tr1) => (Throw e, w1, tr1)
  end.

(** [try { body } catch (error) { handler(error) }] *)
Definition try_catch {A : Type} (body : M A) (handler : Error → M A) : M A :=
  λ w,
    match body w with
    | (Ok a, w1, tr1) => (Ok a, w1, tr1)
    | (Throw e, w1, tr1) =>
        match handler e w1 with
        | (r, w2, tr2) => (r, w2, tr1 ++ tr2)
        end
    end.

Definition result_of {A : Type} (x : Result A * World * list Event) : Result A :=
  fst (fst x).
Definition world_of {A : Type} (x : Result A * World * list Event) : World :=
  snd (fst x).
Definition trace_of {A : Type} (x : Result A * World * list Event) : list Event :=
  snd x.

(** ** Primitive effects *)

Definition emit (ev : Event) : M unit := λ w, (Ok tt, w, [ev]).

Definition logger (level : Level) (text : string) : M unit := emit (Log level text).

Definition respond (code : Z) (b : Body) : M unit :=
  emit (Respond {| status := code; body := b |}).

(** [visitCache.get<number>(key)] *)
Definition cache_get (now : Z) (key : string) : M (option Z) :=
  λ w,
    match NodeCache.get now key (visitCache w) with
    | (x, c) => (Ok x, set_visitCache c w, [CacheGet key])
    end.

(** [visitCache.set(key, value)] *)
Definition cache_set (now : Z) (key : string) (value : Z) : M unit :=
  λ w, (Ok tt, set_visitCache (NodeCache.set now key value (visitCache w)) w,
        [CacheSet key value]).

(** [await Visit.findOne()]: the first document, [null] on an empty
    collection, or the rejection the environment chose. *)
Definition findOne (E : Env) : M (option IVisit) :=
  λ w,
    match findOne_fault E with
    | Some e => (Throw e, w, [StoreFindOne])
    | None =>
        (Ok (match visits w with
             | [] => None
             | r :: _ => Some (hydrate r)
             end), w, [StoreFindOne])
    end.

(** [new Visit({ count: n })]: an unsaved document with its own [_id]. *)
Definition newVisit (n : Z) : M IVisit :=
  λ w, (Ok (construct (fresh_oid (visits w)) n), w, []).

(** The write behind [save] and [create]; a rejected write changes
    nothing. *)
Definition write (fault : option Error) (d : IVisit) : M unit :=
  λ w,
    match fault with
    | Some e => (Throw e, w, [write_event d])
    | None => (Ok tt, set_visits (stored d (visits w)) w, [write_event d])
    end.

(** [await visit.save()] *)
Definition save (E : Env) (d : IVisit) : M unit := write (save_fault E) d.

(** [await Visit.create({ count: n })] *)
Definition create (E : Env) (n : Z) : M unit :=
  d ← newVisit n; write (create_fault E) d.

(** ** The program *)

Definition visitCountKey : string := "visitCount".

(** [initializeDatabase] (lines 65-75). *)
Definition initializeDatabase (E : Env) : M unit :=
  try_catch
    (visit ← findOne E;
     match visit with
     | None =>
         create E 0;;
         logger info "Initialized visit count in database."
     | Some _ => mret tt
     end)
    (λ err, logger error "Error initializing database:").

(** The readiness states of a store connection and their codes. *)
Inductive ConnectionState : Type :=
| disconnected | connected | connecting | disconnecting | uninitialized.

Definition readyState (s : ConnectionState) : Z :=
  match s with
  | disconnected => 0
  | connected => 1
  | connecting => 2
  | disconnecting => 3
  | uninitialized => 99
  end.

(** [GET /readiness] (lines 106-113). *)
Definition readiness (s : ConnectionState) : Response :=
  let mongoState := readyState s in
  if mongoState =? 1
  then {| status := 200; body := JsonStatus "Ready" |}
  else {| status := 500; body := JsonStatus "Not Ready" |}.

(** The body of [if (!visitCount) { ... }] (lines 119-127): read the
    record, add one to it or start a new one at 1, save it, cache the
    count; the value is the new [visitCount]. *)
Definition refresh (E : Env) : M Z :=
  found ← findOne E;
  visit ← match found with
          | None => newVisit 1
          | Some d => mret (incremented d)
          end;
  save E visit;;
  cache_set (now_set E) visitCountKey (count visit);;
  mret (count visit).

(** [updateVisitCount] (lines 116-130); [!visitCount] holds for
    [undefined] and for [0]. *)
Definition updateVisitCount (E : Env) : M Z :=
  visitCount ← cache_get (now_get E) visitCountKey;
  match visitCount with
  | Some n => if truthy n then mret n else refresh E
  | None => refresh E
  end.

(** [asyncHandler] (lines 91-95): a rejection goes to [next]. *)
Definition asyncHandler (fn : M unit) (next : Error → M unit) : M unit :=
  try_catch fn next.

(** The error-handling middleware (lines 142-145). *)
Definition errorHandler (err : Error) : M unit :=
  logger error (stack err);;
  respond 500 (JsonError (or_else (message err) "Internal Server Error")).

(** [GET /api/visit] (lines 133-139). *)
Definition apiVisit (E : Env) : M unit :=
  asyncHandler
    (visitCount ← updateVisitCount E;
     respond 200 (JsonVisit visitCount))
    errorHandler.

(** ** Runs of operations, one after the other *)

Inductive Op : Type :=
| OpInit (E : Env)
| OpVisit (E : Env).

Definition step (w : World) (op : Op) : World :=
  match op with
  | OpInit E => world_of (initializeDatabase E w)
  | OpVisit E => world_of (updateVisitCount E w)
  end.

Definition run (ops : list Op) (w : World) : World := fold_left step ops w.

(** ** Calls that overlap *)

(** A call in flight: not started, suspended at one of its [await]s, or
    returned. *)
Inductive Task : Type :=
| VisitCalled (E : Env)
| VisitFinding (E : Env)                  (* at [await Visit.findOne()] *)
| VisitSaving (E : Env) (visit : IVisit)  (* at [await visit.save()] *)
| VisitReturned (r : Result Z)
| InitCalled (E : Env)
| InitFinding (E : Env)                   (* at [await Visit.findOne()] *)
| InitCreating (E : Env) (d : IVisit)     (* at [await Visit.create(...)] *)
| InitReturned.

(** One turn of the event loop for a task: the code from where it stands
    to its next [await] (or its end), run without interruption.  A store
    call takes effect when the task is resumed from it; [id] is the
    identifier a document constructed in this turn gets. *)
Definition resume (id : nat) (t : Task) (w : World) : Task * World * list Event :=
  match t with
  | VisitCalled E =>
      match NodeCache.get (now_get E) visitCountKey (visitCache w) with
      | (Some n, c) =>
          if truthy n
          then (VisitReturned (Ok n), set_visitCache c w, [CacheGet visitCountKey])
          else (VisitFinding E, set_visitCache c w, [CacheGet visitCountKey; StoreFindOne])
      | (None, c) =>
          (VisitFinding E, set_visitCache c w, [CacheGet visitCountKey; StoreFindOne])
      end
  | VisitFinding E =>
      match findOne_fault E with
      | Some e => (VisitReturned (Throw e), w, [])
      | None =>
          let visit := match visits w with
                       | [] => construct id 1
                       | r :: _ => incremented (hydrate r)
                       end in
          (VisitSaving E visit, w, [write_event visit])
      end
  | VisitSaving E visit =>
      match save_fault E with
      | Some e => (VisitReturned (Throw e), w, [])
      | None =>
          (VisitReturned (Ok (count visit)),
           {| visits := stored visit (visits w);
              visitCache := NodeCache.set (now_set E) visitCountKey (count visit)
                              (visitCache w) |},
           [CacheSet visitCountKey (count visit)])
      end
  | VisitReturned r => (VisitReturned r, w, [])
  | InitCalled E => (InitFinding E, w, [StoreFindOne])
  | InitFinding E =>
      match findOne_fault E with
      | Some _ => (InitReturned, w, [Log error "Error initializing database:"])
      | None =>
          match visits w with
          | [] => (InitCreating E (construct id 0), w, [write_event (construct id 0)])
          | _ :: _ => (InitReturned, w, [])
          end
      end
  | InitCreating E d =>
      match create_fault E with
      | Some _ => (InitReturned, w, [Log error "Error initializing database:"])
      | None =>
          (InitReturned, set_visits (stored d (visits w)) w,
           [Log info "Initialized visit count in database."])
      end
  | InitReturned => (InitReturned, w, [])
  end.

(** The event loop: each pick names the task to resume and the identifier
    at its disposal; a pick outside the pool is skipped. *)
Fixpoint schedule (picks : list (nat * nat)) (pool : list Task) (w : World)
    : list Task * World * list Event :=
  match picks with
  | [] => (pool, w, [])
  | (i, id) :: rest =>
      match pool !! i with
      | None => schedule rest pool w
      | Some t =>
          match resume id t w with
          | (t', w1, tr1) =>
              match schedule rest (<[i := t']> pool) w1 with
              | (pool', w2, tr2) => (pool', w2, tr1 ++ tr2)
              end
          end
      end
  end.

(** A task run from call to return with nothing in between. *)
Definition uninterrupted (t : Task) (w : World) : list Task * World * list Event :=
  let id := fresh_oid (visits w) in
  schedule [(O, id); (O, id); (O, id)] [t] w.

(** ** Observations *)

(** The count of the record [findOne()] would return. *)
Definition record_count (w : World) : option Z :=
  match visits w with
  | [] => None
  | r :: _ => Some (row_count r)
  end.

Fixpoint responses (tr : list Event) : list Response :=
  match tr with
  | [] => []
  | Respond r :: rest => r :: responses rest
  | _ :: rest => responses rest
  end.

Fixpoint cache_writes (tr : list Event) : list Z :=
  match tr with
  | [] => []
  | CacheSet _ n :: rest => n :: cache_writes rest
  | _ :: rest => cache_writes rest
  end.

(** The first store failure a cold call would meet. *)
Definition store_failure (E : Env) : option Error :=
  match findOne_fault E with
  | Some e => Some e
  | None => save_fault E
  end.

Definition no_faults (t1 t2 : Z) : Env :=
  {| now_get := t1; now_set := t2;
     findOne_fault := None; save_fault := None; create_fault := None |}.

(** ** Notions used in the statements *)

(** The range in which [x + 1] is exact. *)
Definition safe (x : Z) : Prop := - two53 ≤ x < two53.

(** The document [refresh] is about to save: the record incremented, or a
    new document at 1. *)
Definition next_visit (rows : list Row) : IVisit :=
  match rows with
  | [] => construct (fresh_oid []) 1
  | r :: _ => incremented (hydrate r)
  end.

(** The collection once [d], read from its head or new to an empty
    collection, is saved. *)
Definition written (d : IVisit) (rows : list Row) : list Row :=
  match rows with
  | [] => [{| row_id := oid d; row_count := count d |}]
  | r :: rest => {| row_id := row_id r; row_count := count d |} :: rest
  end.

(** The world after the cache read of a call: an expired entry under
    ["visitCount"] is gone, nothing else has changed. *)
Definition dropped (now : Z) (w : World) : World :=
  set_visitCache (NodeCache.get now visitCountKey (visitCache w)).2 w.

(** The world a successful cold call leaves behind. *)
Definition refreshed (E : Env) (w : World) : World :=
  let d := next_visit (visits w) in
  {| visits := written d (visits w);
     visitCache := NodeCache.set (now_set E) visitCountKey (count d) (visitCache w) |}.

(** The cache has nothing to offer: no live entry, or a live zero. *)
Definition cache_cold (now : Z) (c : gmap string NodeCache.Entry) : bool :=
  match (NodeCache.get now visitCountKey c).1 with
  | Some n => negb (truthy n)
  | None => true
  end.

(** The cache read followed by the body of the [if]. *)
Definition cold_run (E : Env) : M Z :=
  λ w, match refresh E (dropped (now_get E) w) with
       | (r, w', tr) => (r, w', CacheGet visitCountKey :: tr)
       end.

(** The three ways a call can go: a hit, a store failure, a refresh. *)
Inductive Outcome (E : Env) (w : World) : Result Z * World * list Event → Prop :=
| Hit (n : Z) :
    (NodeCache.get (now_get E) visitCountKey (visitCache w)).1 = Some n →
    n ≠ 0 →
    Outcome E w (Ok n, w, [CacheGet visitCountKey])
| Failed (e : Error) (tr : list Event) :
    cache_cold (now_get E) (visitCache w) = true →
    store_failure E = Some e →
    cache_writes tr = [] →
    Outcome E w (Throw e, dropped (now_get E) w, tr)
| Refreshed :
    cache_cold (now_get E) (visitCache w) = true →
    store_failure E = None →
    Outcome E w
      (Ok (count (next_visit (visits w))), refreshed E w,
       [CacheGet visitCountKey; StoreFindOne; write_event (next_visit (visits w));
        CacheSet visitCountKey (count (next_visit (visits w)))]).

(** The collection holds no more than one record. *)
Definition singleton_store (w : World) : Prop := (length (visits w) ≤ 1)%nat.

(** The record of [w], if there is one, is still the only one in [w'],
    under the same identifier. *)
Definition same_record (w w' : World) : Prop :=
  match visits w with
  | [r] => ∃ n, visits w' = [{| row_id := row_id r; row_count := n |}]
  | _ => True
  end.

(** A task that is not about to insert a document. *)
Definition settled (t : Task) : bool :=
  match t with
  | VisitSaving _ visit => negb (isNew visit)
  | InitCreating _ _ => false
  | _ => true
  end.

(** The data model of the record: every persisted count is a non-negative
    integer. *)
Definition counts_nonneg (rows : list Row) : bool :=
  forallb (λ r, 0 <=? row_count r) rows.

(** An entry under ["visitCount"], live or not, holds at least 1. *)
Definition cached_positive (c : gmap string NodeCache.Entry) : bool :=
  match c !! visitCountKey with
  | Some e => 1 <=? NodeCache.v e
  | None => true
  end.

Definition well_formed (w : World) : bool :=
  counts_nonneg (visits w) && cached_positive (visitCache w).

Definition init_error_text : string := "Error initializing database:".
Definition init_done_text : string := "Initialized visit count in database.".

Definition ready_reply : Response := {| status := 200; body := JsonStatus "Ready" |}.
Definition not_ready_reply : Response := {| status := 500; body := JsonStatus "Not Ready" |}.

(** ** Serving requests *)

(** Requests to [/api/visit] handled one after the other, each with the
    choices its environment makes: the final world and the whole trace. *)
Fixpoint serve (reqs : list Env) (w : World) : World * list Event :=
  match reqs with
  | [] => (w, [])
  | E :: rest =>
      match apiVisit E w with
      | (_, w1, tr1) =>
          match serve rest w1 with
          | (w2, tr2) => (w2, tr1 ++ tr2)
          end
      end
  end.

(** The counts that went out in [{visitCount: n}] bodies. *)
Fixpoint visit_counts (rs : list Response) : list Z :=
  match rs with
  | [] => []
  | r :: rest =>
      match body r with
      | JsonVisit n => n :: visit_counts rest
      | _ => visit_counts rest
      end
  end.

Definition served (reqs : list Env) (w : World) : list Z :=
  visit_counts (responses (snd (serve reqs w))).

(** Each value is the one before it, or that one incremented once. *)
Fixpoint gentle (base : Z) (l : list Z) : Prop :=
  match l with
  | [] => True
  | a :: rest => (a = base ∨ a = js_incr base) ∧ gentle a rest
  end.

(** The entry under ["visitCount"], live or expired, mirrors the record. *)
Definition coherent (w : World) : Prop :=
  match visitCache w !! visitCountKey with
  | Some e => record_count w = Some (NodeCache.v e)
  | None => True
  end.

(** The reply of [/api/visit] to the outcome of [updateVisitCount]. *)
Definition reply_to (r : Result Z) : Response :=
  match r with
  | Ok n => {| status := 200; body := JsonVisit n |}
  | Throw e =>
      {| status := 500;
         body := JsonError (or_else (message e) "Internal Server Error") |}
  end.

(** What [/api/visit] appends to the trace of [updateVisitCount]. *)
Definition reply_events (r : Result Z) : list Event :=
  match r with
  | Ok n => [Respond (reply_to r)]
  | Throw e => [Log error (stack e); Respond (reply_to r)]
  end.

(** ** Sample worlds and environments *)

Definition err_down : Error := {| message := "connection lost"; stack := "at findOne" |}.

Definition err_blank : Error := {| message := ""; stack := "at save" |}.

Definition env_read_fails : Env :=
  {| now_get := 1000; now_set := 1005; findOne_fault := Some err_down;
     save_fault := None; create_fault := None |}.

Definition env_write_fails : Env :=
  {| now_get := 1000; now_set := 1005; findOne_fault := None;
     save_fault := Some err_down; create_fault := None |}.

(** A read at clock 700000 that the store then rejects. *)
Definition env_late_read_fails : Env :=
  {| now_get := 700000; now_set := 700005; findOne_fault := Some err_down;
     save_fault := None; create_fault := None |}.

Definition w_empty : World := {| visits := []; visitCache := ∅ |}.

Definition w41 : World :=
  {| visits := [{| row_id := 7%nat; row_count := 41 |}]; visitCache := ∅ |}.

(** The record at 42, cached until clock 601005. *)
Definition w_warm : World :=
  {| visits := [{| row_id := 7%nat; row_count := 42 |}];
     visitCache := {[ visitCountKey := {| NodeCache.v := 42; NodeCache.t := 601005 |} ]} |}.

(** A live zero under the key; another key beside it. *)
Definition c_zero : gmap string NodeCache.Entry :=
  {[ visitCountKey := {| NodeCache.v := 0; NodeCache.t := 5000 |};
     "other"%string := {| NodeCache.v := 3; NodeCache.t := 0 |} ]}.

Definition w_two : World :=
  {| visits := [{| row_id := 7%nat; row_count := 41 |};
                {| row_id := 9%nat; row_count := 5 |}];
     visitCache := {[ "other"%string := {| NodeCache.v := 3; NodeCache.t := 0 |} ]} |}.

(** A record at [2^53], where [+= 1] no longer moves the count. *)
Definition w_big : World :=
  {| visits := [{| row_id := 7%nat; row_count := two53 |}]; visitCache := ∅ |}.

(** A record below zero. *)
Definition w_negative : World :=
  {| visits := [{| row_id := 1%nat; row_count := -1 |}]; visitCache := ∅ |}.

Definition sample_ops : list Op :=
  [OpInit (no_faults 0 0); OpVisit (no_faults 10 11); OpVisit env_write_fails;
   OpVisit (no_faults 700000 700001); OpInit env_read_fails].

Definition sample_reqs : list Env :=
  [no_faults 10 11; env_write_fails; no_faults 700000 700001;
   {| now_get := 1400000; now_set := 1400001; findOne_fault := Some err_down;
      save_fault := None; create_fault := None |};
   no_faults 1400002 1400003].

(** Two calls of [updateVisitCount], taking turns at every [await]. *)
Definition two_calls : list Task :=
  [VisitCalled (no_faults 10 11); VisitCalled (no_faults 10 12)].

Definition taking_turns : list (nat * nat) :=
  [(0, 1); (1, 2); (0, 1); (1, 2); (0, 1); (1, 2)]%nat.

(** ** Unfolding the effects *)

Ltac run_effects :=
  unfold updateVisitCount, refresh, initializeDatabase, apiVisit, asyncHandler,
    errorHandler, try_catch, create, save, write, newVisit, findOne, cache_get,
    cache_set, respond, logger, emit, mbind, M_bind, mret, M_ret,
    result_of, world_of, trace_of in *;
  cbn [fst snd visits visitCache oid count isNew isModified set_visits set_visitCache]
    in *.

(** Case analysis on the hypotheses, closing what is absurd or plain. *)
Ltac break_cases :=
  repeat match goal with
         | H : _ ∨ _ |- _ => destruct H
         | H : _ ∧ _ |- _ => destruct H
         | H : ∃ _, _ |- _ => destruct H
         | H : False |- _ => destruct H
         end;
  try discriminate; eauto 6.

(** ** Concrete runs *)

Example run_41 :
  updateVisitCount (no_faults 1000 1005) w41
  = (Ok 42,
     {| visits := [{| row_id := 7%nat; row_count := 42 |}];
        visitCache := {[ visitCountKey := {| NodeCache.v := 42; NodeCache.t := 601005 |} ]} |},
     [CacheGet visitCountKey; StoreFindOne; StoreUpdate 7 42; CacheSet visitCountKey 42]).
Proof. reflexivity. Qed.

Example run_41_then_hit :
  result_of (updateVisitCount (no_faults 2000 2001)
               (world_of (updateVisitCount (no_faults 1000 1005) w41)))
  = Ok 42.
Proof. reflexivity. Qed.

Example run_41_then_expired :
  result_of (updateVisitCount (no_faults 601006 601007)
               (world_of (updateVisitCount (no_faults 1000 1005) w41)))
  = Ok 43.
Proof. reflexivity. Qed.

(** An expired entry is gone after the read, even when the store fails. *)
Example expired_entry_dropped :
  updateVisitCount env_late_read_fails w_warm
  = (Throw err_down,
     {| visits := [{| row_id := 7%nat; row_count := 42 |}]; visitCache := ∅ |},
     [CacheGet visitCountKey; StoreFindOne]).
Proof. reflexivity. Qed.

(** At [2^53] the count stalls: nothing is written to the store. *)
Example run_two53 :
  updateVisitCount (no_faults 1000 1005) w_big
  = (Ok two53,
     {| visits := [{| row_id := 7%nat; row_count := two53 |}];
        visitCache := {[ visitCountKey := {| NodeCache.v := two53; NodeCache.t := 601005 |} ]} |},
     [CacheGet visitCountKey; StoreFindOne; StoreExists 7; CacheSet visitCountKey two53]).
Proof. reflexivity. Qed.

Example js_incr_samples :
  two53 = 2 ^ 53
  ∧ js_incr 0 = 1
  ∧ js_incr (-1) = 0
  ∧ js_incr (two53 - 1) = two53
  ∧ js_incr two53 = two53
  ∧ js_incr (two53 + 2) = two53 + 4
  ∧ js_incr (two53 + 4) = two53 + 4
  ∧ js_incr (2 * two53 - 2) = 2 * two53
  ∧ js_incr (2 * two53) = 2 * two53
  ∧ js_incr (- two53) = - two53 + 1
  ∧ js_incr (- two53 - 2) = - two53
  ∧ js_incr (- two53 - 4) = - two53 - 4
  ∧ js_incr (- 2 * two53) = - 2 * two53.
Proof. repeat split; reflexivity. Qed.

(** ** Facts about numbers, the cache and the store primitives *)

Lemma truthy_nonzero (n : Z) : truthy n = true ↔ n ≠ 0.
Proof. unfold truthy. destruct (Z.eqb_spec n 0); simpl; split; intros; congruence. Qed.

Lemma js_incr_safe (x : Z) : safe x → js_incr x = x + 1.
Proof.
  unfold safe, js_incr. intros [Hlo Hhi].
  destruct (Z.leb_spec (- two53) x); [|lia].
  destruct (Z.ltb_spec x two53); [reflexivity | lia].
Qed.

Lemma js_incr_bounds (x : Z) : x ≤ js_incr x ≤ x + 2.
Proof.
  unfold js_incr.
  destruct ((- two53 <=? x) && (x <? two53)); [lia|].
  destruct (Z.odd (x / 2)); lia.
Qed.

Lemma js_incr_positive (x : Z) : 0 ≤ x → 1 ≤ js_incr x.
Proof.
  intros Hx. unfold js_incr.
  destruct (Z.leb_spec (- two53) x); [|unfold two53 in *; lia].
  destruct (Z.ltb_spec x two53); cbn [andb]; [lia|].
  unfold two53 in *. destruct (Z.odd (x / 2)); lia.
Qed.

(** ** The increment against the rounding of doubles *)

Lemma round_magnitude_small a : 0 <= a < two53 -> round_magnitude a = a.
Proof.
  intros Ha. unfold round_magnitude.
  assert (Hlog : Z.log2 a - 52 <= 0).
  { destruct (Z.eq_dec a 0) as [-> | H0]; [cbn; lia|].
    assert (Z.log2 a < 53); [|lia].
    apply Z.log2_lt_pow2; [lia|]. change (2 ^ 53) with two53. lia. }
  rewrite Z.max_l by lia. change (2 ^ 0) with 1.
  rewrite Z.div_1_r, Z.mod_1_r. change (2 * 0 <? 1) with true. cbn iota. lia.
Qed.

(** In the binade [2^L .. 2^(L+1)), [L >= 53], [L - 52] bits are dropped. *)
Lemma round_magnitude_big a L :
  53 <= L -> 2 ^ L <= a < 2 ^ (L + 1) ->
  round_magnitude a =
    (if 2 * (a mod 2 ^ (L - 52)) <? 2 ^ (L - 52) then a / 2 ^ (L - 52)
     else if 2 ^ (L - 52) <? 2 * (a mod 2 ^ (L - 52)) then a / 2 ^ (L - 52) + 1
     else if Z.even (a / 2 ^ (L - 52)) then a / 2 ^ (L - 52) else a / 2 ^ (L - 52) + 1)
    * 2 ^ (L - 52).
Proof.
  intros HL Ha. unfold round_magnitude.
  assert (Hlog : Z.log2 a = L) by (apply Z.log2_unique; lia).
  rewrite Hlog, Z.max_r by lia. reflexivity.
Qed.

Lemma pow_split L : 53 <= L -> 2 ^ L = 2 ^ 52 * 2 ^ (L - 52) /\ 2 ^ (L + 1) = 2 ^ 53 * 2 ^ (L - 52) /\ 2 <= 2 ^ (L - 52).
Proof.
  intros HL. repeat split.
  - rewrite <- Z.pow_add_r by lia. f_equal. lia.
  - rewrite <- Z.pow_add_r by lia. f_equal. lia.
  - change 2 with (2 ^ 1) at 1. apply Z.pow_le_mono_r; lia.
Qed.

(** A number that rounding leaves alone is a multiple of its spacing. *)
Lemma representable_big a L :
  53 <= L -> 2 ^ L <= a < 2 ^ (L + 1) -> round_magnitude a = a ->
  a mod 2 ^ (L - 52) = 0.
Proof.
  intros HL Ha Hr. rewrite (round_magnitude_big a L HL Ha) in Hr.
  destruct (pow_split L HL) as (H1 & H2 & H3).
  set (p := 2 ^ (L - 52)) in *.
  assert (Hp : 0 < p) by lia.
  pose proof (Z.div_mod a p ltac:(lia)) as Hdm.
  pose proof (Z.mod_pos_bound a p Hp) as Hb.
  set (q := a / p) in *. set (r := a mod p) in *.
  destruct (2 * r <? p); [nia|].
  destruct (p <? 2 * r); [nia|].
  destruct (Z.even q); nia.
Qed.

Lemma binade a : two53 <= a -> 53 <= Z.log2 a /\ 2 ^ Z.log2 a <= a < 2 ^ (Z.log2 a + 1).
Proof.
  intros Ha. split.
  - change 53 with (Z.log2 two53). apply Z.log2_le_mono. exact Ha.
  - replace (Z.log2 a + 1) with (Z.succ (Z.log2 a)) by lia.
    apply Z.log2_spec. unfold two53 in Ha. lia.
Qed.

Lemma pow_quad L : 54 <= L -> 2 ^ (L - 52) = 4 * 2 ^ (L - 54) /\ 0 < 2 ^ (L - 54).
Proof.
  intros HL. split.
  - change 4 with (2 ^ 2). rewrite <- Z.pow_add_r by lia. f_equal. lia.
  - apply Z.pow_pos_nonneg; lia.
Qed.

Lemma pow_two L : 2 ^ (L - 52) = 2 -> L = 53.
Proof.
  intros H. destruct (Z_lt_le_dec L 53) as [Hlt | Hge].
  - destruct (Z.eq_dec L 52) as [-> | Hne]; [cbn in H; lia|].
    rewrite Z.pow_neg_r in H by lia. lia.
  - destruct (Z.eq_dec L 53) as [-> | Hne]; [reflexivity|].
    destruct (pow_quad L ltac:(lia)) as [Hq Hpos]. lia.
Qed.

Lemma even_half_of_quad q k : Z.odd (q * (4 * k) / 2) = false.
Proof.
  replace (q * (4 * k)) with ((2 * (q * k)) * 2) by lia.
  rewrite Z.div_mul by lia. rewrite Z.odd_mul. reflexivity.
Qed.

Lemma js_incr_unsafe x : x < - two53 \/ two53 <= x ->
  js_incr x = if Z.odd (x / 2) then x + 2 else x.
Proof.
  intros Hx. unfold js_incr.
  destruct (Z.leb_spec (- two53) x); destruct (Z.ltb_spec x two53); cbn [andb]; try reflexivity; lia.
Qed.

Lemma js_incr_big_pos x :
  two53 <= x -> round_magnitude x = x -> js_incr x = round_magnitude (x + 1).
Proof.
  intros Hx Hrep.
  destruct (binade x Hx) as [HL Hb]. set (L := Z.log2 x) in *.
  pose proof (representable_big x L HL Hb Hrep) as Hmod.
  destruct (pow_split L HL) as (H1 & H2 & H3).
  assert (Hx1 : 2 ^ L <= x + 1 < 2 ^ (L + 1)).
  { pose proof (Z.div_mod x (2 ^ (L - 52)) ltac:(lia)) as Hdm. rewrite Hmod in Hdm.
    change (2 ^ 53) with 9007199254740992 in H2.
    set (p := 2 ^ (L - 52)) in *. set (q := x / p) in *.
    assert (q < 9007199254740992) by nia.
    split; [lia | nia]. }
  rewrite (round_magnitude_big (x + 1) L HL Hx1), (js_incr_unsafe x) by lia.
  set (p := 2 ^ (L - 52)) in *.
  pose proof (Z.div_mod x p ltac:(lia)) as Hdm. rewrite Hmod in Hdm.
  set (q := x / p) in *.
  assert (Hq : (x + 1) / p = q) by (symmetry; apply (Z.div_unique_pos _ _ q 1); lia).
  assert (Hr : (x + 1) mod p = 1) by (symmetry; apply (Z.mod_unique_pos _ _ q 1); lia).
  rewrite Hq, Hr.
  destruct (Z.ltb_spec (2 * 1) p) as [Hbig | Hsmall].
  - assert (HL54 : 54 <= L).
    { destruct (Z.eq_dec L 53) as [HeqL | ]; [|lia]. subst p. rewrite HeqL in Hbig. cbn in Hbig. lia. }
    destruct (pow_quad L HL54) as [Hquad _]. fold p in Hquad.
    replace x with (q * (4 * 2 ^ (L - 54))) at 1 by lia.
    rewrite even_half_of_quad. lia.
  - assert (Hp2 : p = 2) by lia.
    destruct (Z.ltb_spec p (2 * 1)); [lia|].
    replace (x / 2) with q by (apply (Z.div_unique_pos x 2 q 0); lia).
    rewrite <- Z.negb_even. destruct (Z.even q); cbn [negb]; lia.
Qed.

Lemma js_incr_big_neg a :
  two53 < a -> round_magnitude a = a -> js_incr (- a) = - round_magnitude (a - 1).
Proof.
  intros Ha Hrep.
  destruct (binade a ltac:(lia)) as [HL Hb]. set (L := Z.log2 a) in *.
  pose proof (representable_big a L HL Hb Hrep) as Hmod.
  destruct (pow_split L HL) as (H1 & H2 & H3).
  rewrite (js_incr_unsafe (- a)) by lia.
  set (p := 2 ^ (L - 52)) in *.
  pose proof (Z.div_mod a p ltac:(lia)) as Hdm. rewrite Hmod in Hdm.
  set (q := a / p) in *.
  change (2 ^ 52) with 4503599627370496 in H1.
  change (2 ^ 53) with 9007199254740992 in H2.
  assert (Hq : 4503599627370496 <= q < 9007199254740992) by nia.
  destruct (Z.eq_dec q 4503599627370496) as [Hpow | Hnot].
  - (* [a] is a power of two: [a - 1] falls into the binade below *)
    assert (HL54 : 54 <= L).
    { destruct (Z.eq_dec L 53) as [HeqL | ]; [|lia].
      assert (Hp2 : p = 2) by (subst p; rewrite HeqL; reflexivity).
      unfold two53 in Ha. nia. }
    destruct (pow_split (L - 1) ltac:(lia)) as (G1 & G2 & G3).
    replace (L - 1 + 1) with L in G2 by lia.
    change (2 ^ 52) with 4503599627370496 in G1.
    change (2 ^ 53) with 9007199254740992 in G2.
    assert (Ha1 : 2 ^ (L - 1) <= a - 1 < 2 ^ (L - 1 + 1)).
    { replace (L - 1 + 1) with L by lia. nia. }
    rewrite (round_magnitude_big (a - 1) (L - 1) ltac:(lia) Ha1).
    set (p' := 2 ^ (L - 1 - 52)) in *.
    assert (Hp' : p = 2 * p').
    { subst p p'. replace (L - 52) with (1 + (L - 1 - 52)) by lia.
      rewrite Z.pow_add_r by lia. reflexivity. }
    assert (Hq' : (a - 1) / p' = 9007199254740991)
      by (symmetry; apply (Z.div_unique_pos _ _ _ (p' - 1)); nia).
    assert (Hr' : (a - 1) mod p' = p' - 1)
      by (symmetry; apply (Z.mod_unique_pos _ _ 9007199254740991 _); nia).
    rewrite Hq', Hr'.
    destruct (pow_quad L HL54) as [Hquad Hpos]. fold p in Hquad.
    replace (- a) with ((- q) * (4 * 2 ^ (L - 54))) at 1 by lia.
    rewrite even_half_of_quad.
    destruct (Z.ltb_spec (2 * (p' - 1)) p'); [lia|].
    destruct (Z.ltb_spec p' (2 * (p' - 1))); [nia|].
    change (Z.even 9007199254740991) with false. cbn iota. nia.
  - assert (Ha1 : 2 ^ L <= a - 1 < 2 ^ (L + 1)) by nia.
    rewrite (round_magnitude_big (a - 1) L HL Ha1). fold p.
    assert (Hq' : (a - 1) / p = q - 1)
      by (symmetry; apply (Z.div_unique_pos _ _ _ (p - 1)); nia).
    assert (Hr' : (a - 1) mod p = p - 1)
      by (symmetry; apply (Z.mod_unique_pos _ _ (q - 1) _); nia).
    rewrite Hq', Hr'.
    destruct (Z.ltb_spec (2 * (p - 1)) p); [lia|].
    destruct (Z.ltb_spec p (2 * (p - 1))) as [Hbig | Hsmall].
    + assert (HL54 : 54 <= L).
      { destruct (Z.eq_dec L 53) as [HeqL | ]; [|lia].
        subst p. rewrite HeqL in Hbig. cbn in Hbig. lia. }
      destruct (pow_quad L HL54) as [Hquad Hpos]. fold p in Hquad.
      replace (- a) with ((- q) * (4 * 2 ^ (L - 54))) at 1 by lia.
      rewrite even_half_of_quad. nia.
    + assert (Hp2 : p = 2) by lia.
      replace (- a / 2) with (- q) by (apply (Z.div_unique (- a) 2 (- q) 0); lia).
      rewrite Z.odd_opp, <- Z.negb_even.
      replace (q - 1) with (Z.pred q) by lia. rewrite Z.even_pred, <- Z.negb_even.
      destruct (Z.even q); cbn [negb]; lia.
Qed.

(** X13 - the increment of line 123 is the rounded sum: for every integer
    [x] that a double holds, [js_incr x], the model of [visit.count += 1],
    is the double nearest to [x + 1] (round to nearest, ties to even). *)
Theorem js_incr_is_rounding (x : Z) : double_int x → js_incr x = round53 (x + 1).
Proof.
  unfold double_int, round53. intros [_ Hrep].
  destruct (Z_lt_le_dec x (- two53)) as [Hneg | Hlo].
  - assert (Hs : Z.sgn x = -1) by (apply Z.sgn_neg; unfold two53 in *; lia).
    assert (Hs1 : Z.sgn (x + 1) = -1) by (apply Z.sgn_neg; unfold two53 in *; lia).
    rewrite Hs in Hrep. rewrite Hs1.
    replace (Z.abs (x + 1)) with (Z.abs x - 1) by lia.
    replace x with (- Z.abs x) at 1 by lia.
    rewrite js_incr_big_neg; lia.
  - destruct (Z_lt_le_dec x two53) as [Hsafe | Hpos].
    + unfold js_incr.
      destruct (Z.leb_spec (- two53) x); [|lia].
      destruct (Z.ltb_spec x two53); [|lia]. cbn [andb].
      destruct (Z.eq_dec (Z.abs (x + 1)) two53) as [Heq | Hne].
      * assert (Hx : x + 1 = two53 ∨ x + 1 = - two53) by lia.
        destruct Hx as [-> | ->]; reflexivity.
      * rewrite round_magnitude_small by lia. lia.
    + assert (Hs : Z.sgn x = 1) by (apply Z.sgn_pos; unfold two53 in *; lia).
      assert (Hs1 : Z.sgn (x + 1) = 1) by (apply Z.sgn_pos; unfold two53 in *; lia).
      rewrite Hs in Hrep. rewrite Hs1.
      replace (Z.abs (x + 1)) with (x + 1) by lia.
      replace (Z.abs x) with x in Hrep by lia.
      rewrite (js_incr_big_pos x); lia.
Qed.

Lemma js_incr_is_rounding_witness : js_incr (two53 + 2) = round53 (two53 + 2 + 1).
Proof. apply (js_incr_is_rounding (two53 + 2)). split; reflexivity. Defined.

Example rounding_samples :
  round53 (two53 + 1) = two53
  ∧ round53 (two53 + 3) = two53 + 4
  ∧ round53 (two53 + 2) = two53 + 2
  ∧ round53 (- two53 - 1) = - two53
  ∧ round53 (2 * two53 + 2) = 2 * two53
  ∧ round53 (2 * two53 + 6) = 2 * two53 + 8.
Proof. repeat split; reflexivity. Qed.

Section CacheFacts.

Context (key : string) (c : gmap string NodeCache.Entry).

(** A read misses exactly on a missing or an expired entry. *)
Lemma get_None_iff (now : Z) :
  (NodeCache.get now key c).1 = None
  ↔ c !! key = None ∨ ∃ e, c !! key = Some e ∧ NodeCache.expired now e = true.
Proof.
  unfold NodeCache.get. destruct (c !! key) as [e|] eqn:Hk.
  - destruct (NodeCache.expired now e) eqn:Hx; split.
    + intros _. right. eauto.
    + reflexivity.
    + discriminate.
    + intros [H | (e' & H & Hx')]; [discriminate | congruence].
  - split; [intros _; by left | reflexivity].
Qed.

(** A read that yields a value leaves the cache as it is. *)
Lemma get_Some_keeps (now n : Z) :
  (NodeCache.get now key c).1 = Some n → (NodeCache.get now key c).2 = c.
Proof.
  unfold NodeCache.get. destruct (c !! key) as [e|]; [|discriminate].
  by destruct (NodeCache.expired now e).
Qed.


(** What a read leaves under its key is what was there, or nothing. *)
Lemma get_same_key (now : Z) :
  (NodeCache.get now key c).2 !! key = c !! key
  ∨ (NodeCache.get now key c).2 !! key = None.
Proof.
  unfold NodeCache.get. destruct (c !! key) as [e|] eqn:Hk; [|by left].
  destruct (NodeCache.expired now e); [|by left].
  right. cbn [snd]. by rewrite lookup_delete_eq.
Qed.

(** What was just written is read back for the whole time-to-live. *)
Lemma get_set_live (t0 now n : Z) :
  now ≤ t0 + NodeCache.stdTTL * 1000 →
  NodeCache.get now key (NodeCache.set t0 key n c)
  = (Some n, NodeCache.set t0 key n c).
Proof.
  intros Hle. unfold NodeCache.get, NodeCache.set.
  rewrite lookup_insert_eq. unfold NodeCache.expired. cbn [NodeCache.t NodeCache.v].
  destruct (Z.ltb_spec (t0 + NodeCache.stdTTL * 1000) now); [lia|].
  by rewrite andb_false_r.
Qed.

(** Past the time-to-live it is gone. *)
Lemma get_set_expired (t0 now n : Z) :
  0 ≤ t0 → t0 + NodeCache.stdTTL * 1000 < now →
  (NodeCache.get now key (NodeCache.set t0 key n c)).1 = None.
Proof.
  intros H0 Hlt. unfold NodeCache.get, NodeCache.set.
  rewrite lookup_insert_eq. unfold NodeCache.expired, NodeCache.stdTTL in *.
  cbn [NodeCache.t NodeCache.v].
  destruct (Z.eqb_spec (t0 + 600 * 1000) 0); [lia|].
  destruct (Z.ltb_spec (t0 + 600 * 1000) now); [reflexivity | lia].
Qed.

(** A write does not care what the key held before. *)
Lemma set_overwrites (t0 n : Z) (e : NodeCache.Entry) :
  NodeCache.set t0 key n (<[key := e]> c) = NodeCache.set t0 key n (delete key c).
Proof. unfold NodeCache.set. by rewrite insert_insert_eq, insert_delete_eq. Qed.

(** Nor whether a read dropped it just before. *)
Lemma set_after_get (t0 now n : Z) :
  NodeCache.set t0 key n (NodeCache.get now key c).2 = NodeCache.set t0 key n c.
Proof.
  unfold NodeCache.get, NodeCache.set. destruct (c !! key) as [e|]; [|reflexivity].
  destruct (NodeCache.expired now e); [|reflexivity].
  cbn [snd]. by rewrite insert_delete_eq.
Qed.

End CacheFacts.

Lemma updateOne_head (r : Row) (n : Z) (rest : list Row) :
  updateOne (row_id r) n (r :: rest) = {| row_id := row_id r; row_count := n |} :: rest.
Proof. simpl. by rewrite Nat.eqb_refl. Qed.

Lemma updateOne_length (id : nat) (n : Z) (rows : list Row) :
  length (updateOne id n rows) = length rows.
Proof.
  induction rows as [|r rest IH]; simpl; [reflexivity|].
  destruct (Nat.eqb (row_id r) id); simpl; congruence.
Qed.

(** Saving the document of the cold path rewrites the head of the
    collection, or starts it. *)
Lemma stored_next_visit (rows : list Row) :
  stored (next_visit rows) rows = written (next_visit rows) rows.
Proof.
  destruct rows as [|[id n] rest]; [reflexivity|].
  unfold stored, next_visit, incremented, hydrate, written.
  cbn [isNew isModified oid count row_id row_count orb].
  destruct (Z.eqb_spec (js_incr n) n) as [Heq | Hne]; cbn [negb].
  - by rewrite Heq.
  - cbn [updateOne row_id]. by rewrite Nat.eqb_refl.
Qed.

Lemma dropped_visits (now : Z) (w : World) : visits (dropped now w) = visits w.
Proof. reflexivity. Qed.

(** ** The cold path, case by case *)

Lemma refresh_cases (E : Env) (w : World) :
  refresh E w =
    match findOne_fault E with
    | Some e => (Throw e, w, [StoreFindOne])
    | None =>
        let d := next_visit (visits w) in
        match save_fault E with
        | Some e => (Throw e, w, [StoreFindOne; write_event d])
        | None =>
            (Ok (count d),
             {| visits := written d (visits w);
                visitCache := NodeCache.set (now_set E) visitCountKey (count d) (visitCache w) |},
             [StoreFindOne; write_event d; CacheSet visitCountKey (count d)])
        end
    end.
Proof.
  destruct w as [rows c]. run_effects.
  destruct (findOne_fault E) as [e|]; [reflexivity|].
  cbn zeta. rewrite <- stored_next_visit.
  destruct rows as [|r rest]; cbn [next_visit];
    destruct (save_fault E); reflexivity.
Qed.

Lemma cold_run_cases (E : Env) (w : World) :
  cold_run E w =
    match findOne_fault E with
    | Some e => (Throw e, dropped (now_get E) w, [CacheGet visitCountKey; StoreFindOne])
    | None =>
        let d := next_visit (visits w) in
        match save_fault E with
        | Some e =>
            (Throw e, dropped (now_get E) w,
             [CacheGet visitCountKey; StoreFindOne; write_event d])
        | None =>
            (Ok (count d), refreshed E w,
             [CacheGet visitCountKey; StoreFindOne; write_event d;
              CacheSet visitCountKey (count d)])
        end
    end.
Proof.
  unfold cold_run. rewrite refresh_cases.
  destruct (findOne_fault E) as [e|]; [reflexivity|].
  cbn zeta. rewrite dropped_visits.
  destruct (save_fault E) as [e|]; [reflexivity|].
  unfold dropped, refreshed. cbn [visitCache set_visitCache].
  by rewrite set_after_get.
Qed.

Lemma updateVisitCount_cases (E : Env) (w : World) :
  updateVisitCount E w =
    match (NodeCache.get (now_get E) visitCountKey (visitCache w)).1 with
    | Some n => if truthy n then (Ok n, w, [CacheGet visitCountKey]) else cold_run E w
    | None => cold_run E w
    end.
Proof.
  unfold cold_run, dropped, updateVisitCount, cache_get, mbind, M_bind at 1, mret, M_ret.
  pose proof (get_Some_keeps visitCountKey (visitCache w) (now_get E)) as Hkeep.
  destruct (NodeCache.get (now_get E) visitCountKey (visitCache w)) as [[n|] c];
    cbn [fst snd] in *.
  - destruct (truthy n).
    + rewrite (Hkeep n eq_refl). by destruct w.
    + by destruct (refresh E _) as [[r w'] tr].
  - by destruct (refresh E _) as [[r w'] tr].
Qed.

Lemma updateVisitCount_cold (E : Env) (w : World) :
  cache_cold (now_get E) (visitCache w) = true →
  updateVisitCount E w = cold_run E w.
Proof.
  unfold cache_cold. intros Hc. rewrite updateVisitCount_cases.
  destruct (NodeCache.get (now_get E) visitCountKey (visitCache w)).1 as [n|];
    [|reflexivity].
  destruct (truthy n); [discriminate | reflexivity].
Qed.

Lemma updateVisitCount_outcome (E : Env) (w : World) :
  Outcome E w (updateVisitCount E w).
Proof.
  destruct (cache_cold (now_get E) (visitCache w)) eqn:Hcold.
  - rewrite (updateVisitCount_cold _ _ Hcold), cold_run_cases.
    destruct (findOne_fault E) as [e1|] eqn:Hf.
    + apply Failed; [done | by unfold store_failure; rewrite Hf | done].
    + cbn zeta. destruct (save_fault E) as [e2|] eqn:Hs.
      * apply Failed; [done | by unfold store_failure; rewrite Hf |].
        unfold write_event.
        by destruct (isNew (next_visit (visits w))), (isModified (next_visit (visits w))).
      * apply Refreshed; [done | by unfold store_failure; rewrite Hf].
  - unfold cache_cold in Hcold. rewrite updateVisitCount_cases.
    destruct (NodeCache.get (now_get E) visitCountKey (visitCache w)).1 as [n|] eqn:Hg;
      [|discriminate].
    destruct (truthy n) eqn:Ht; [|discriminate].
    apply Hit; [done | by apply truthy_nonzero].
Qed.

Lemma cache_writes_refresh (d : IVisit) :
  cache_writes [CacheGet visitCountKey; StoreFindOne; write_event d;
                CacheSet visitCountKey (count d)] = [count d].
Proof. unfold write_event. by destruct (isNew d), (isModified d). Qed.

Lemma store_failure_None (E : Env) :
  store_failure E = None → findOne_fault E = None ∧ save_fault E = None.
Proof. unfold store_failure. by destruct (findOne_fault E). Qed.

(** ** The claims about [updateVisitCount] *)

(** C1 - cache-hit short-circuit: when the cache holds a live, non-zero
    value [n] under ["visitCount"], [updateVisitCount] returns exactly [n],
    leaves the store and the cache as they were, and the only call it
    issues is the cache read: no store read, no store write, no increment
    and no cache write, whatever the environment would have done. *)
Theorem cache_hit_short_circuit (E : Env) (w : World) (n : Z) :
  (NodeCache.get (now_get E) visitCountKey (visitCache w)).1 = Some n →
  n ≠ 0 →
  updateVisitCount E w = (Ok n, w, [CacheGet visitCountKey]).
Proof.
  intros Hget Hn. rewrite updateVisitCount_cases, Hget.
  apply truthy_nonzero in Hn. by rewrite Hn.
Qed.

Lemma cache_hit_short_circuit_witness :
  updateVisitCount
    {| now_get := 2000; now_set := 2001; findOne_fault := Some err_down;
       save_fault := Some err_down; create_fault := None |} w_warm
  = (Ok 42, w_warm, [CacheGet visitCountKey]).
Proof. apply cache_hit_short_circuit; [reflexivity | lia]. Defined.

(** C2, as stated, fails where double precision runs out: with the record
    at [2^53] and an empty cache, the call returns, caches and keeps
    [2^53], not [2^53 + 1], and sends no update. *)
Lemma increment_stalls_at_two53 :
  let out := updateVisitCount (no_faults 1000 1005) w_big in
  record_count w_big = Some two53
  ∧ (NodeCache.get 1000 visitCountKey (visitCache w_big)).1 = None
  ∧ result_of out = Ok two53
  ∧ result_of out ≠ Ok (two53 + 1)
  ∧ record_count (world_of out) = Some two53
  ∧ cache_writes (trace_of out) = [two53].
Proof. cbv zeta. repeat split. discriminate. Qed.

(** C2 (amended) - cache-miss increment on an existing record: with a
    record of count [n] in the store, [n] in the range where [n + 1] is
    exact ([-2^53 <= n < 2^53]), a missing or expired cache entry and no
    store failure, [updateVisitCount] persists [n + 1] in that record,
    writes [n + 1] into the cache and returns [n + 1]; afterwards the
    value read from the cache is the count of the store's record. *)
Theorem cache_miss_increment (E : Env) (r : Row) (rest : list Row)
    (c : gmap string NodeCache.Entry) :
  findOne_fault E = None →
  save_fault E = None →
  (NodeCache.get (now_get E) visitCountKey c).1 = None →
  safe (row_count r) →
  let n := row_count r in
  let out := updateVisitCount E {| visits := r :: rest; visitCache := c |} in
  out = (Ok (n + 1),
         {| visits := {| row_id := row_id r; row_count := n + 1 |} :: rest;
            visitCache :=
              <[visitCountKey := {| NodeCache.v := n + 1;
                                    NodeCache.t := now_set E + 600 * 1000 |}]> c |},
         [CacheGet visitCountKey; StoreFindOne; StoreUpdate (row_id r) (n + 1);
          CacheSet visitCountKey (n + 1)])
  ∧ (NodeCache.get (now_set E) visitCountKey (visitCache (world_of out))).1 = Some (n + 1)
  ∧ record_count (world_of out) = Some (n + 1).
Proof.
  intros Hf Hs Hmiss Hsafe n out.
  assert (Hout : out = (Ok (n + 1),
         {| visits := {| row_id := row_id r; row_count := n + 1 |} :: rest;
            visitCache := NodeCache.set (now_set E) visitCountKey (n + 1) c |},
         [CacheGet visitCountKey; StoreFindOne; StoreUpdate (row_id r) (n + 1);
          CacheSet visitCountKey (n + 1)])).
  { subst out. rewrite updateVisitCount_cases. cbn [visitCache]. rewrite Hmiss.
    rewrite cold_run_cases, Hf, Hs. cbn zeta.
    unfold refreshed, next_visit, incremented, hydrate, write_event, written.
    cbn [visits visitCache oid count isNew isModified orb].
    rewrite (js_incr_safe _ Hsafe). fold n.
    destruct (Z.eqb_spec (n + 1) n); [lia | reflexivity]. }
  rewrite Hout. split; [reflexivity|]. split; [|reflexivity].
  unfold world_of. cbn [fst snd visitCache]. rewrite get_set_live; [reflexivity|].
  unfold NodeCache.stdTTL. lia.
Qed.

Lemma cache_miss_increment_witness :
  updateVisitCount (no_faults 1000 1005) w41
  = (Ok 42,
     {| visits := [{| row_id := 7%nat; row_count := 42 |}];
        visitCache := <[visitCountKey := {| NodeCache.v := 42; NodeCache.t := 601005 |}]> ∅ |},
     [CacheGet visitCountKey; StoreFindOne; StoreUpdate 7 42; CacheSet visitCountKey 42]).
Proof.
  apply (cache_miss_increment (no_faults 1000 1005)
           {| row_id := 7%nat; row_count := 41 |} [] ∅);
    [reflexivity | reflexivity | reflexivity | unfold safe, two53; simpl; lia].
Defined.

(** C3 - cache-miss increment without a prior record: on an empty store
    and an empty cache, with no store failure, [updateVisitCount] inserts
    one record with count 1, writes 1 into the cache and returns 1. *)
Theorem cache_miss_first_record (t1 t2 : Z) (cf : option Error) :
  updateVisitCount
    {| now_get := t1; now_set := t2; findOne_fault := None; save_fault := None;
       create_fault := cf |}
    {| visits := []; visitCache := ∅ |}
  = (Ok 1,
     {| visits := [{| row_id := fresh_oid []; row_count := 1 |}];
        visitCache := {[ visitCountKey := {| NodeCache.v := 1;
                                             NodeCache.t := t2 + 600 * 1000 |} ]} |},
     [CacheGet visitCountKey; StoreFindOne; StoreInsert (fresh_oid []) 1;
      CacheSet visitCountKey 1]).
Proof. reflexivity. Qed.

(** Whenever [updateVisitCount] throws, a store call failed, the store is
    as it was and the cache was read but not written. *)
Lemma throw_leaves_world (E : Env) (w w' : World) (e : Error) (tr : list Event) :
  updateVisitCount E w = (Throw e, w', tr) →
  w' = dropped (now_get E) w ∧ cache_writes tr = [] ∧ store_failure E = Some e.
Proof.
  intros Hrun.
  destruct (updateVisitCount_outcome E w) as [k Hg Hk | e' tr' Hc Hf Hw | Hc Hf];
    try discriminate.
  by injection Hrun as <- <- <-.
Qed.

(** C4, as stated, fails for an expired entry: the read that finds the
    cache cold deletes the entry before the store call fails, so the cache
    is not the one the call started with. *)
Lemma failure_drops_expired_entry :
  let out := updateVisitCount env_late_read_fails w_warm in
  result_of out = Throw err_down
  ∧ visitCache w_warm !! visitCountKey
    = Some {| NodeCache.v := 42; NodeCache.t := 601005 |}
  ∧ visitCache (world_of out) !! visitCountKey = None
  ∧ visitCache (world_of out) ≠ visitCache w_warm.
Proof.
  cbv zeta. repeat split.
  intros Heq. apply (f_equal (λ c, c !! visitCountKey)) in Heq. discriminate.
Qed.

(** C4 (amended) - store failures: when the cache is cold and the store
    read or the store write fails with [e], [updateVisitCount] throws [e]
    to its caller; the store is as before, no cache write was issued, and
    the cache is as before except that an expired entry under
    ["visitCount"] has been deleted by the read.  The [/api/visit] route
    then hands [e] to the error middleware, which answers once, with
    status 500 and the body [{error: e.message}] (or the fallback text for
    an empty message). *)
Theorem store_failure_propagates (E : Env) (w : World) (e : Error) :
  cache_cold (now_get E) (visitCache w) = true →
  store_failure E = Some e →
  let reply := {| status := 500;
                  body := JsonError (or_else (message e) "Internal Server Error") |} in
  let after := {| visits := visits w;
                  visitCache :=
                    (NodeCache.get (now_get E) visitCountKey (visitCache w)).2 |} in
  ∃ tr, updateVisitCount E w = (Throw e, after, tr)
      ∧ cache_writes tr = []
      ∧ (visitCache after = visitCache w
         ∨ ∃ e0, visitCache w !! visitCountKey = Some e0
               ∧ NodeCache.expired (now_get E) e0 = true
               ∧ visitCache after = delete visitCountKey (visitCache w))
      ∧ apiVisit E w = (Ok tt, after, tr ++ [Log error (stack e); Respond reply])
      ∧ responses (trace_of (apiVisit E w)) = [reply].
Proof.
  intros Hcold Hfail reply after.
  assert (Hthrow : ∃ tr, updateVisitCount E w = (Throw e, after, tr)
                         ∧ cache_writes tr = [] ∧ responses tr = []).
  { rewrite (updateVisitCount_cold _ _ Hcold), cold_run_cases.
    unfold store_failure in Hfail.
    destruct (findOne_fault E) as [e1|].
    - injection Hfail as ->. by eexists.
    - cbn zeta. rewrite Hfail. eexists. split; [reflexivity|].
      unfold write_event.
      by destruct (isNew (next_visit (visits w))), (isModified (next_visit (visits w))). }
  destruct Hthrow as (tr & Hrun & Hw & Hr).
  assert (Hroute : apiVisit E w = (Ok tt, after, tr ++ [Log error (stack e); Respond reply])).
  { unfold apiVisit, asyncHandler, try_catch, mbind, M_bind at 1. by rewrite Hrun. }
  exists tr. split; [exact Hrun|]. split; [exact Hw|]. split; [|split; [exact Hroute|]].
  - subst after. cbn [visitCache]. unfold NodeCache.get.
    destruct (visitCache w !! visitCountKey) as [e0|] eqn:Hk; [|by left].
    destruct (NodeCache.expired (now_get E) e0) eqn:Hx; [|by left].
    right. by exists e0.
  - rewrite Hroute. unfold trace_of. cbn [snd].
    clear -Hr. induction tr as [|ev tr IH]; [reflexivity|].
    destruct ev; cbn in *; try (by apply IH); discriminate.
Qed.

Lemma store_failure_propagates_witness :
  ∃ tr, updateVisitCount env_late_read_fails w_warm
        = (Throw err_down,
           {| visits := [{| row_id := 7%nat; row_count := 42 |}]; visitCache := ∅ |}, tr)
      ∧ cache_writes tr = []
      ∧ apiVisit env_late_read_fails w_warm
        = (Ok tt,
           {| visits := [{| row_id := 7%nat; row_count := 42 |}]; visitCache := ∅ |},
           tr ++ [Log error "at findOne";
                  Respond {| status := 500; body := JsonError "connection lost" |}])
      ∧ responses (trace_of (apiVisit env_late_read_fails w_warm))
        = [{| status := 500; body := JsonError "connection lost" |}].
Proof.
  destruct (store_failure_propagates env_late_read_fails w_warm err_down
              eq_refl eq_refl) as (tr & Hrun & Hw & _ & Hroute & Hres).
  exists tr. exact (conj Hrun (conj Hw (conj Hroute Hres))).
Defined.

Example write_failure_run :
  apiVisit env_write_fails w41
  = (Ok tt, w41,
     [CacheGet visitCountKey; StoreFindOne; StoreUpdate 7 42; Log error "at findOne";
      Respond {| status := 500; body := JsonError "connection lost" |}]).
Proof. reflexivity. Qed.

Example empty_message_run :
  responses (trace_of (apiVisit
    {| now_get := 0; now_set := 0;
       findOne_fault := Some {| message := ""; stack := "" |};
       save_fault := None; create_fault := None |} w41))
  = [{| status := 500; body := JsonError "Internal Server Error" |}].
Proof. reflexivity. Qed.

(** C5 - a cached zero counts as a miss: with 0 stored under
    ["visitCount"] (live or expired) [updateVisitCount] does what it does
    without the entry.  When the store answers, it reads the record,
    persists its count plus one (in double precision) or inserts a record
    at 1, writes that count into the cache and returns it; the whole
    outcome is the one of the run on the cache without the entry.  When a
    store call fails, both runs throw that error after the same calls and
    leave the store alone. *)
Theorem zero_cached_is_miss (E : Env) (rows : list Row)
    (c : gmap string NodeCache.Entry) (e0 : NodeCache.Entry) :
  c !! visitCountKey = Some e0 →
  NodeCache.v e0 = 0 →
  let w0 := {| visits := rows; visitCache := c |} in
  let wa := {| visits := rows; visitCache := delete visitCountKey c |} in
  let n := match rows with [] => 1 | r :: _ => js_incr (row_count r) end in
  let out0 := updateVisitCount E w0 in
  let outa := updateVisitCount E wa in
  result_of out0 = result_of outa
  ∧ trace_of out0 = trace_of outa
  ∧ visits (world_of out0) = visits (world_of outa)
  ∧ (∃ tr, trace_of out0 = CacheGet visitCountKey :: StoreFindOne :: tr)
  ∧ match store_failure E with
    | None =>
        out0 = outa
        ∧ result_of out0 = Ok n
        ∧ visits (world_of out0)
          = match rows with
            | [] => [{| row_id := fresh_oid []; row_count := 1 |}]
            | r :: rest => {| row_id := row_id r; row_count := n |} :: rest
            end
        ∧ visitCache (world_of out0)
          = <[visitCountKey := {| NodeCache.v := n;
                                  NodeCache.t := now_set E + 600 * 1000 |}]> c
        ∧ cache_writes (trace_of out0) = [n]
    | Some e =>
        result_of out0 = Throw e
        ∧ visits (world_of out0) = rows
        ∧ cache_writes (trace_of out0) = []
    end.
Proof.
  intros Hk Hzero w0 wa n out0 outa.
  assert (H0 : out0 = cold_run E w0).
  { apply updateVisitCount_cold. unfold cache_cold, NodeCache.get. subst w0.
    cbn [visitCache]. rewrite Hk.
    destruct (NodeCache.expired (now_get E) e0); cbn [fst]; [reflexivity|].
    by rewrite Hzero. }
  assert (Ha : outa = cold_run E wa).
  { apply updateVisitCount_cold. unfold cache_cold, NodeCache.get. subst wa.
    cbn [visitCache]. by rewrite lookup_delete_eq. }
  assert (Hn : count (next_visit rows) = n) by (subst n; by destruct rows).
  assert (Hwritten : written (next_visit rows) rows
                     = match rows with
                       | [] => [{| row_id := fresh_oid []; row_count := 1 |}]
                       | r :: rest => {| row_id := row_id r; row_count := n |} :: rest
                       end) by (subst n; by destruct rows).
  assert (Hcache : NodeCache.set (now_set E) visitCountKey n (delete visitCountKey c)
                   = NodeCache.set (now_set E) visitCountKey n c).
  { unfold NodeCache.set. by rewrite insert_delete_eq. }
  rewrite H0, Ha, !cold_run_cases. subst w0 wa. cbn [visits visitCache].
  unfold store_failure.
  destruct (findOne_fault E) as [e1|]; [cbn; eauto 10|].
  cbn zeta. destruct (save_fault E) as [e2|].
  - unfold result_of, world_of, trace_of. cbn [fst snd visits dropped set_visitCache].
    repeat split; eauto.
    unfold write_event. by destruct (isNew (next_visit rows)), (isModified (next_visit rows)).
  - unfold result_of, world_of, trace_of, refreshed.
    cbn [fst snd visits visitCache].
    rewrite cache_writes_refresh, Hn, Hwritten, Hcache.
    repeat split; eauto.
Qed.

Lemma zero_cached_is_miss_witness :
  let w0 := {| visits := visits w41; visitCache := c_zero |} in
  let wa := {| visits := visits w41; visitCache := delete visitCountKey c_zero |} in
  let out0 := updateVisitCount (no_faults 1000 1005) w0 in
  let outa := updateVisitCount (no_faults 1000 1005) wa in
  out0 = outa
  ∧ result_of out0 = Ok 42
  ∧ visits (world_of out0) = [{| row_id := 7%nat; row_count := 42 |}]
  ∧ visitCache (world_of out0)
    = <[visitCountKey := {| NodeCache.v := 42; NodeCache.t := 601005 |}]> c_zero
  ∧ cache_writes (trace_of out0) = [42].
Proof.
  destruct (zero_cached_is_miss (no_faults 1000 1005) (visits w41) c_zero
              {| NodeCache.v := 0; NodeCache.t := 5000 |} eq_refl eq_refl)
    as (_ & _ & _ & _ & Hok).
  exact Hok.
Defined.

Example zero_cached_run :
  NodeCache.get 1000 visitCountKey c_zero = (Some 0, c_zero)
  ∧ result_of (updateVisitCount (no_faults 1000 1005)
                 {| visits := visits w41; visitCache := c_zero |}) = Ok 42.
Proof. split; reflexivity. Qed.

(** ** Start-up reconciliation *)

Lemma initializeDatabase_cases (E : Env) (w : World) :
  initializeDatabase E w =
    match findOne_fault E with
    | Some _ => (Ok tt, w, [StoreFindOne; Log error init_error_text])
    | None =>
        match visits w with
        | _ :: _ => (Ok tt, w, [StoreFindOne])
        | [] =>
            match create_fault E with
            | Some _ =>
                (Ok tt, w,
                 [StoreFindOne; StoreInsert (fresh_oid []) 0; Log error init_error_text])
            | None =>
                (Ok tt, set_visits [{| row_id := fresh_oid []; row_count := 0 |}] w,
                 [StoreFindOne; StoreInsert (fresh_oid []) 0; Log info init_done_text])
            end
        end
    end.
Proof.
  destruct w as [rows c]. run_effects.
  destruct (findOne_fault E) as [e|]; [reflexivity|].
  destruct rows as [|r rest]; [|reflexivity].
  cbn. destruct (create_fault E); reflexivity.
Qed.

(** The routine catches what it throws. *)
Lemma initializeDatabase_never_throws (E : Env) (w : World) :
  result_of (initializeDatabase E w) = Ok tt.
Proof.
  rewrite initializeDatabase_cases.
  destruct (findOne_fault E), (visits w), (create_fault E); reflexivity.
Qed.

(** With a record in the store nothing changes, whatever the environment. *)
Lemma init_existing_unchanged (E : Env) (r : Row) (rest : list Row)
    (c : gmap string NodeCache.Entry) :
  world_of (initializeDatabase E {| visits := r :: rest; visitCache := c |})
  = {| visits := r :: rest; visitCache := c |}.
Proof.
  rewrite initializeDatabase_cases. cbn [visits].
  destruct (findOne_fault E); reflexivity.
Qed.

(** A failed run changes nothing either. *)
Lemma init_failure_unchanged (E : Env) (w : World) (e : Error) :
  findOne_fault E = Some e ∨ create_fault E = Some e →
  world_of (initializeDatabase E w) = w.
Proof.
  rewrite initializeDatabase_cases. intros [H | H]; rewrite H.
  - reflexivity.
  - destruct (findOne_fault E), (visits w); reflexivity.
Qed.

(** C6 - idempotent bootstrap: a successful [initializeDatabase] leaves a
    store that already holds a record exactly as it is, turns an empty
    store into one record with count 0, never touches the cache, and a
    second run (whatever its environment) changes nothing any more. *)
Theorem bootstrap_idempotent (E1 E2 : Env) (w : World) :
  findOne_fault E1 = None →
  create_fault E1 = None →
  let w1 := world_of (initializeDatabase E1 w) in
  visits w1 = match visits w with
              | [] => [{| row_id := fresh_oid []; row_count := 0 |}]
              | _ :: _ => visits w
              end
  ∧ visitCache w1 = visitCache w
  ∧ world_of (initializeDatabase E2 w1) = w1.
Proof.
  intros Hf Hc w1. subst w1. rewrite initializeDatabase_cases, Hf, Hc.
  destruct w as [[|r rest] c]; cbn [visits world_of fst snd set_visits visitCache].
  - repeat split. apply init_existing_unchanged.
  - repeat split. apply init_existing_unchanged.
Qed.

Lemma bootstrap_idempotent_witness :
  let w1 := world_of (initializeDatabase (no_faults 0 0) w_empty) in
  visits w1 = [{| row_id := fresh_oid []; row_count := 0 |}]
  ∧ visitCache w1 = ∅
  ∧ world_of (initializeDatabase env_read_fails w1) = w1.
Proof.
  apply (bootstrap_idempotent (no_faults 0 0) env_read_fails w_empty); reflexivity.
Defined.

Example bootstrap_keeps_count :
  world_of (initializeDatabase (no_faults 0 0)
              (world_of (initializeDatabase (no_faults 0 0) w41))) = w41.
Proof. reflexivity. Qed.

(** ** Readiness *)

(** C7 - readiness reflects store connectivity: [GET /readiness] answers
    200 [{status: "Ready"}] exactly when the connection is in the connected
    state, and 500 [{status: "Not Ready"}] in every other state. *)
Theorem readiness_reflects_connection (s : ConnectionState) :
  (readiness s = ready_reply ↔ s = connected)
  ∧ (readiness s = not_ready_reply ↔ s ≠ connected).
Proof.
  destruct s; unfold readiness, ready_reply, not_ready_reply; cbn;
    repeat split; intros; try discriminate; try congruence.
Qed.

(** ** Invariants of runs *)

(** What one operation, successful or not, can do to the collection:
    nothing, insert the first record (at 0 or at 1), or increment the
    record [findOne()] returns. *)
Lemma step_store (w : World) (op : Op) :
  visits (step w op) = visits w
  ∨ (visits w = []
     ∧ ∃ n, (n = 0 ∨ n = 1)
          ∧ visits (step w op) = [{| row_id := fresh_oid []; row_count := n |}])
  ∨ (∃ r rest, visits w = r :: rest
             ∧ visits (step w op)
               = {| row_id := row_id r; row_count := js_incr (row_count r) |} :: rest).
Proof.
  destruct op as [E | E]; unfold step.
  - rewrite initializeDatabase_cases.
    destruct (findOne_fault E); [by left|].
    destruct (visits w) as [|r rest] eqn:Hv; [|by left].
    destruct (create_fault E); [by left|].
    right. left. split; [reflexivity|]. exists 0. split; [by left|].
    unfold world_of. reflexivity.
  - destruct (updateVisitCount_outcome E w) as [n Hg Hn | e tr Hc Hf Hw | Hc Hf];
      unfold world_of; cbn [fst snd]; [by left | by left |].
    unfold refreshed. cbn [visits].
    destruct (visits w) as [|r rest]; cbn [written next_visit oid count].
    + right. left. split; [reflexivity|]. exists 1. split; [by right | reflexivity].
    + right. right. by exists r, rest.
Qed.

Lemma run_snoc (ops : list Op) (op : Op) (w : World) :
  run (ops ++ [op]) w = step (run ops w) op.
Proof. unfold run. by rewrite fold_left_app. Qed.


Lemma step_singleton (w : World) (op : Op) :
  singleton_store w → singleton_store (step w op) ∧ same_record w (step w op).
Proof.
  unfold singleton_store, same_record. intros Hone.
  destruct (step_store w op) as [Heq | [(Hnil & n & _ & Heq) | (r & rest & Hv & Heq)]];
    rewrite Heq.
  - split; [done|]. destruct (visits w) as [|[id k] [|r' rest]]; try done.
    by exists k.
  - rewrite Hnil. split; [cbn; lia | done].
  - rewrite Hv in *. destruct rest as [|r' rest]; [|cbn in Hone; lia].
    split; [cbn; lia|]. eauto.
Qed.

(** ** Uninterrupted tasks are the calls *)

Lemma schedule_cons (i id : nat) (rest : list (nat * nat)) (pool : list Task)
    (w : World) (t : Task) :
  pool !! i = Some t →
  schedule ((i, id) :: rest) pool w =
    match resume id t w with
    | (t', w1, tr1) =>
        match schedule rest (<[i := t']> pool) w1 with
        | (pool', w2, tr2) => (pool', w2, tr1 ++ tr2)
        end
    end.
Proof. intros Hi. cbn [schedule]. by rewrite Hi. Qed.

Lemma uninterrupted_unfold (t : Task) (w : World) :
  uninterrupted t w =
    match resume (fresh_oid (visits w)) t w with
    | (t1, w1, tr1) =>
        match resume (fresh_oid (visits w)) t1 w1 with
        | (t2, w2, tr2) =>
            match resume (fresh_oid (visits w)) t2 w2 with
            | (t3, w3, tr3) => ([t3], w3, tr1 ++ tr2 ++ tr3)
            end
        end
    end.
Proof.
  unfold uninterrupted. cbv zeta.
  rewrite (schedule_cons O _ _ [t] w t eq_refl).
  destruct (resume (fresh_oid (visits w)) t w) as [[t1 w1] tr1].
  rewrite (schedule_cons O _ _ [t1] w1 t1 eq_refl).
  destruct (resume (fresh_oid (visits w)) t1 w1) as [[t2 w2] tr2].
  rewrite (schedule_cons O _ _ [t2] w2 t2 eq_refl).
  destruct (resume (fresh_oid (visits w)) t2 w2) as [[t3 w3] tr3].
  cbn [schedule]. by rewrite app_nil_r.
Qed.

Lemma visit_uninterrupted (E : Env) (w : World) :
  uninterrupted (VisitCalled E) w
  = ([VisitReturned (result_of (updateVisitCount E w))],
     world_of (updateVisitCount E w), trace_of (updateVisitCount E w)).
Proof.
  rewrite uninterrupted_unfold, updateVisitCount_cases, cold_run_cases.
  unfold refreshed, dropped, result_of, world_of, trace_of.
  rewrite <- stored_next_visit.
  pose proof (get_Some_keeps visitCountKey (visitCache w) (now_get E)) as Hkeep.
  pose proof (set_after_get visitCountKey (visitCache w) (now_set E) (now_get E)) as Hset.
  destruct w as [rows c]. cbn [resume visits visitCache] in *.
  destruct (NodeCache.get (now_get E) visitCountKey c) as [[n|] c'];
    cbn [fst snd] in *.
  - destruct (truthy n).
    + rewrite (Hkeep n eq_refl). reflexivity.
    + cbn [resume set_visitCache visits visitCache].
      destruct (findOne_fault E); [reflexivity|].
      cbn [resume].
      destruct rows as [|r rest]; cbn [next_visit];
        (destruct (save_fault E); [reflexivity|]);
        cbn [fst snd app visits visitCache]; by rewrite Hset.
  - cbn [resume set_visitCache visits visitCache].
    destruct (findOne_fault E); [reflexivity|].
    cbn [resume].
    destruct rows as [|r rest]; cbn [next_visit];
      (destruct (save_fault E); [reflexivity|]);
      cbn [fst snd app visits visitCache]; by rewrite Hset.
Qed.

Lemma init_uninterrupted (E : Env) (w : World) :
  uninterrupted (InitCalled E) w
  = ([InitReturned],
     world_of (initializeDatabase E w), trace_of (initializeDatabase E w)).
Proof.
  rewrite uninterrupted_unfold, initializeDatabase_cases. unfold world_of, trace_of.
  destruct w as [rows c]. cbn [resume visits].
  destruct (findOne_fault E); [reflexivity|].
  destruct rows as [|r rest]; [|reflexivity].
  cbn [resume].
  destruct (create_fault E); reflexivity.
Qed.

(** C8, as stated, fails for calls that overlap: two calls of
    [updateVisitCount] on an empty store and cache, each resumed in turn at
    its [await]s, both find no record, both insert one, and the store ends
    with two records. *)
Lemma overlapping_calls_two_records :
  let out := schedule taking_turns two_calls w_empty in
  singleton_store w_empty
  ∧ out.1.1 = [VisitReturned (Ok 1); VisitReturned (Ok 1)]
  ∧ visits out.1.2 = [{| row_id := 1%nat; row_count := 1 |};
                      {| row_id := 2%nat; row_count := 1 |}]
  ∧ ¬ singleton_store out.1.2.
Proof.
  cbv zeta. split; [unfold singleton_store; cbn; lia|].
  split; [reflexivity|]. split; [reflexivity|].
  unfold singleton_store.
  change (visits (schedule taking_turns two_calls w_empty).1.2)
    with [{| row_id := 1%nat; row_count := 1 |}; {| row_id := 2%nat; row_count := 1 |}].
  cbn [length]. lia.
Qed.

(** C8 (amended) - singleton record for calls that do not overlap: from a
    store with at most one record, every sequence of [initializeDatabase]
    and [updateVisitCount] calls, each run to its end before the next one
    starts (failed ones included), ends in a store with at most one
    record; a record that was there stays the only one, under its
    identifier, so a call inserts only into an empty store and updates
    the existing record otherwise. *)
Theorem at_most_one_record (ops : list Op) (w : World) :
  singleton_store w →
  singleton_store (run ops w) ∧ same_record w (run ops w).
Proof.
  induction ops as [|op ops IH] using rev_ind; intros Hone.
  - split; [exact Hone|]. unfold same_record, run. cbn.
    destruct (visits w) as [|[id k] [|r' rest]]; try done. by exists k.
  - rewrite run_snoc. destruct (IH Hone) as [Hmid Hsame].
    destruct (step_singleton (run ops w) op Hmid) as [Hend Hstep].
    split; [exact Hend|].
    unfold same_record in *.
    destruct (visits w) as [|r [|r' rest]]; try done.
    destruct Hsame as [n Hn]. rewrite Hn in Hstep. exact Hstep.
Qed.

Lemma at_most_one_record_witness :
  singleton_store (run sample_ops w_empty) ∧ same_record w_empty (run sample_ops w_empty).
Proof. apply (at_most_one_record sample_ops w_empty). unfold singleton_store. simpl. lia. Defined.

Example sample_run_store :
  visits (run sample_ops w_empty) = [{| row_id := fresh_oid []; row_count := 2 |}].
Proof. reflexivity. Qed.

(** ** Counts never go down *)




Example sample_run_count :
  record_count (run ([OpInit (no_faults 0 0)] ++ sample_ops) w41) = Some 43.
Proof. reflexivity. Qed.

(** ** Positive counts *)

Lemma next_visit_positive (rows : list Row) :
  counts_nonneg rows = true → 1 ≤ count (next_visit rows).
Proof.
  destruct rows as [|r rest]; cbn; [lia|].
  intros [Hr _]%andb_prop. apply Z.leb_le in Hr. by apply js_incr_positive.
Qed.

Lemma next_visit_count (w : World) :
  count (next_visit (visits w)) = js_incr (default 0 (record_count w)).
Proof. unfold record_count. by destruct (visits w). Qed.

Lemma written_nonneg (d : IVisit) (rows : list Row) :
  0 ≤ count d → counts_nonneg rows = true → counts_nonneg (written d rows) = true.
Proof.
  intros Hd. destruct rows as [|r rest]; cbn.
  - intros _. rewrite andb_true_r. by apply Z.leb_le.
  - intros [_ Hrest]%andb_prop. rewrite Hrest, andb_true_r. by apply Z.leb_le.
Qed.

Lemma cached_positive_set (t0 n : Z) (c : gmap string NodeCache.Entry) :
  1 ≤ n → cached_positive (NodeCache.set t0 visitCountKey n c) = true.
Proof.
  intros Hn. unfold cached_positive, NodeCache.set. rewrite lookup_insert_eq.
  by apply Z.leb_le.
Qed.

Lemma cached_positive_get (now : Z) (c : gmap string NodeCache.Entry) :
  cached_positive c = true →
  cached_positive (NodeCache.get now visitCountKey c).2 = true.
Proof.
  unfold cached_positive. intros Hpos.
  destruct (get_same_key visitCountKey c now) as [-> | ->]; done.
Qed.

Lemma get_cached_positive (now n : Z) (c : gmap string NodeCache.Entry) :
  cached_positive c = true → (NodeCache.get now visitCountKey c).1 = Some n → 1 ≤ n.
Proof.
  unfold cached_positive, NodeCache.get.
  destruct (c !! visitCountKey) as [e|]; [|discriminate].
  intros Hpos. destruct (NodeCache.expired now e); [discriminate|].
  intros [= <-]. by apply Z.leb_le.
Qed.

Lemma refreshed_well_formed (E : Env) (w : World) :
  well_formed w = true → well_formed (refreshed E w) = true.
Proof.
  unfold well_formed. intros [Hs Hc]%andb_prop.
  pose proof (next_visit_positive _ Hs) as Hpos.
  unfold refreshed. cbn [visits visitCache]. apply andb_true_intro. split.
  - apply written_nonneg; [lia | exact Hs].
  - by apply cached_positive_set.
Qed.

Lemma dropped_well_formed (now : Z) (w : World) :
  well_formed w = true → well_formed (dropped now w) = true.
Proof.
  unfold well_formed, dropped. cbn [visits visitCache set_visitCache].
  intros [Hs Hc]%andb_prop. rewrite Hs. by apply cached_positive_get.
Qed.

Lemma step_well_formed (w : World) (op : Op) :
  well_formed w = true → well_formed (step w op) = true.
Proof.
  intros Hwf. destruct op as [E | E]; unfold step.
  - rewrite initializeDatabase_cases.
    destruct (findOne_fault E); [exact Hwf|].
    destruct (visits w) as [|r rest] eqn:Hv; [|exact Hwf].
    destruct (create_fault E); [exact Hwf|].
    unfold world_of, well_formed in *. cbn [fst snd set_visits visits visitCache].
    apply andb_prop in Hwf as [_ Hc]. by rewrite Hc.
  - destruct (updateVisitCount_outcome E w) as [n Hg Hn | e tr Hc Hf Hw | Hc Hf];
      unfold world_of; cbn [fst snd]; [done | |].
    + by apply dropped_well_formed.
    + by apply refreshed_well_formed.
Qed.

Lemma run_well_formed (ops : list Op) (w : World) :
  well_formed w = true → well_formed (run ops w) = true.
Proof.
  intros Hwf. induction ops as [|op ops IH] using rev_ind; [exact Hwf|].
  rewrite run_snoc. by apply step_well_formed.
Qed.

(** At start-up the cache is empty: a store within the data model is all
    it takes. *)
Lemma startup_well_formed (rows : list Row) :
  counts_nonneg rows = true →
  well_formed {| visits := rows; visitCache := ∅ |} = true.
Proof. intros Hs. unfold well_formed. cbn [visits visitCache]. by rewrite Hs. Qed.

(** C9, as stated, fails for a record below zero: line 123 adds one and
    does not clamp, so from a record at -1 (and an empty cache) the call
    persists, caches and returns 0, where [max(old, 0) + 1] would be 1. *)
Lemma negative_record_returns_zero :
  let out := updateVisitCount (no_faults 0 0) w_negative in
  record_count w_negative = Some (-1)
  ∧ result_of out = Ok 0
  ∧ cache_writes (trace_of out) = [0]
  ∧ record_count (world_of out) = Some 0
  ∧ ¬ 1 ≤ 0
  ∧ Z.max (-1) 0 + 1 ≠ 0.
Proof. cbv zeta. repeat split; [lia | discriminate]. Qed.

(** C9 (amended) - positive counts within the data model: in every world
    reached from one whose persisted counts are non-negative and whose
    cache entry, if any, holds at least 1 (an empty cache at start-up in
    particular), every value [updateVisitCount] returns is at least 1: it
    is the live cached value, or the count of the record incremented once
    (the increment of 0 without a record), which it persists; every value
    it writes into the cache is at least 1; and the world it leaves is of
    the same kind, so a cache entry is never zero. *)
Theorem returns_positive (ops : list Op) (E : Env) (w : World) :
  well_formed w = true →
  let w1 := run ops w in
  let out := updateVisitCount E w1 in
  match result_of out with
  | Ok n =>
      1 ≤ n
      ∧ ((NodeCache.get (now_get E) visitCountKey (visitCache w1)).1 = Some n
         ∨ (n = js_incr (default 0 (record_count w1))
            ∧ record_count (world_of out) = Some n))
  | Throw _ => True
  end
  ∧ Forall (Z.le 1) (cache_writes (trace_of out))
  ∧ well_formed (world_of out) = true
  ∧ (NodeCache.get (now_set E) visitCountKey (visitCache (world_of out))).1 ≠ Some 0.
Proof.
  intros Hwf w1 out.
  assert (Hwf1 : well_formed w1 = true) by by apply run_well_formed.
  assert (Hend : well_formed (world_of out) = true)
    by exact (step_well_formed w1 (OpVisit E) Hwf1).
  assert (Hmain :
    match result_of out with
    | Ok n =>
        1 ≤ n
        ∧ ((NodeCache.get (now_get E) visitCountKey (visitCache w1)).1 = Some n
           ∨ (n = js_incr (default 0 (record_count w1))
              ∧ record_count (world_of out) = Some n))
    | Throw _ => True
    end ∧ Forall (Z.le 1) (cache_writes (trace_of out))).
  { subst out. generalize dependent w1. intros w1 Hwf1 _.
    pose proof Hwf1 as [Hs Hc]%andb_prop.
    destruct (updateVisitCount_outcome E w1) as [n Hg Hn | e tr Hcold Hf Hw | Hcold Hf];
      unfold result_of, world_of, trace_of; cbn [fst snd].
    - split; [|constructor]. split; [|by left].
      by apply (get_cached_positive (now_get E) n (visitCache w1)).
    - split; [done|]. rewrite Hw. constructor.
    - pose proof (next_visit_positive _ Hs) as Hpos. split.
      + split; [exact Hpos|]. right. split; [apply next_visit_count|].
        unfold refreshed, record_count. cbn [visits].
        by destruct (visits w1).
      + rewrite cache_writes_refresh. by repeat constructor. }
  destruct Hmain as [Hres Hwr]. repeat split; try done.
  intros Hzero.
  apply andb_prop in Hend as [_ Hc].
  pose proof (get_cached_positive _ _ _ Hc Hzero). lia.
Qed.

Lemma returns_positive_witness :
  let w1 := run sample_ops w_empty in
  let out := updateVisitCount (no_faults 1400000 1400001) w1 in
  match result_of out with
  | Ok n =>
      1 ≤ n
      ∧ ((NodeCache.get 1400000 visitCountKey (visitCache w1)).1 = Some n
         ∨ (n = js_incr (default 0 (record_count w1))
            ∧ record_count (world_of out) = Some n))
  | Throw _ => True
  end
  ∧ Forall (Z.le 1) (cache_writes (trace_of out))
  ∧ well_formed (world_of out) = true
  ∧ (NodeCache.get 1400001 visitCountKey (visitCache (world_of out))).1 ≠ Some 0.
Proof.
  apply (returns_positive sample_ops (no_faults 1400000 1400001) w_empty). reflexivity.
Defined.

Example sample_run_then_visit :
  result_of (updateVisitCount (no_faults 1400000 1400001) (run sample_ops w_empty)) = Ok 3.
Proof. reflexivity. Qed.

(** ** The route and the error middleware *)

Lemma responses_app (tr1 tr2 : list Event) :
  responses (tr1 ++ tr2) = responses tr1 ++ responses tr2.
Proof.
  induction tr1 as [|ev tr1 IH]; [reflexivity|].
  destruct ev; cbn; by rewrite ?IH.
Qed.

Lemma cache_writes_app (tr1 tr2 : list Event) :
  cache_writes (tr1 ++ tr2) = cache_writes tr1 ++ cache_writes tr2.
Proof.
  induction tr1 as [|ev tr1 IH]; [reflexivity|].
  destruct ev; cbn; by rewrite ?IH.
Qed.

Lemma visit_counts_app (rs1 rs2 : list Response) :
  visit_counts (rs1 ++ rs2) = visit_counts rs1 ++ visit_counts rs2.
Proof.
  induction rs1 as [|r rs1 IH]; [reflexivity|].
  cbn. destruct (body r); by rewrite ?IH.
Qed.

(** [updateVisitCount] itself answers nothing. *)
Lemma updateVisitCount_silent (E : Env) (w : World) :
  responses (trace_of (updateVisitCount E w)) = [].
Proof.
  rewrite updateVisitCount_cases, cold_run_cases. unfold trace_of.
  destruct (NodeCache.get (now_get E) visitCountKey (visitCache w)).1 as [n|];
    [destruct (truthy n); [reflexivity|]|];
    (destruct (findOne_fault E); [reflexivity|]; cbn zeta;
     destruct (save_fault E); cbn [snd]; unfold write_event;
     by destruct (isNew (next_visit (visits w))),
                 (isModified (next_visit (visits w)))).
Qed.

Lemma apiVisit_cases (E : Env) (w : World) :
  apiVisit E w =
    (Ok tt, world_of (updateVisitCount E w),
     trace_of (updateVisitCount E w) ++ reply_events (result_of (updateVisitCount E w))).
Proof.
  unfold apiVisit, asyncHandler, try_catch, mbind, M_bind at 1.
  destruct (updateVisitCount E w) as [[[n | e] w1] tr]; reflexivity.
Qed.

(** X1 - one answer per request: the [/api/visit] handler never throws;
    it leaves the world [updateVisitCount] left and answers exactly once,
    with 200 and the count when [updateVisitCount] returned one, with 500
    and the error text when it threw. *)
Theorem apiVisit_answers_once (E : Env) (w : World) :
  result_of (apiVisit E w) = Ok tt
  ∧ world_of (apiVisit E w) = world_of (updateVisitCount E w)
  ∧ responses (trace_of (apiVisit E w)) = [reply_to (result_of (updateVisitCount E w))].
Proof.
  rewrite apiVisit_cases.
  pose proof (updateVisitCount_silent E w) as Hs.
  destruct (updateVisitCount E w) as [[r w1] tr].
  unfold result_of, world_of, trace_of in *. cbn [fst snd] in *.
  repeat split. rewrite responses_app, Hs. by destruct r.
Qed.

(** X2 - the error middleware: for every error it ends normally, leaves
    store and cache alone, logs the stack and answers once with status 500;
    the text it sends is never empty: the message of the error, or the
    fallback when that message is empty. The stack is not in the answer. *)
Theorem errorHandler_reply (err : Error) (w : World) :
  ∃ text,
    errorHandler err w
    = (Ok tt, w, [Log error (stack err);
                  Respond {| status := 500; body := JsonError text |}])
    ∧ text ≠ ""%string
    ∧ (message err ≠ ""%string → text = message err)
    ∧ (message err = ""%string → text = "Internal Server Error"%string).
Proof.
  exists (or_else (message err) "Internal Server Error"). split; [reflexivity|].
  destruct (message err) as [|a m]; cbn; repeat split; intros; congruence.
Qed.

Lemma errorHandler_reply_witness :
  ∃ text,
    errorHandler err_blank w41
    = (Ok tt, w41, [Log error "at save";
                    Respond {| status := 500; body := JsonError text |}])
    ∧ text = "Internal Server Error"%string.
Proof.
  destruct (errorHandler_reply err_blank w41) as (text & Hrun & _ & _ & Hblank).
  exists text. split; [exact Hrun | apply Hblank; reflexivity].
Defined.

(** X3 - start-up failures are swallowed: [initializeDatabase] never
    throws and never touches the cache; it logs an error exactly when a
    store call it made was rejected (the read, or the insert into an empty
    collection), and then the store is as it was. *)
Theorem initializeDatabase_swallows_errors (E : Env) (w : World) :
  let out := initializeDatabase E w in
  result_of out = Ok tt
  ∧ visitCache (world_of out) = visitCache w
  ∧ (In (Log error init_error_text) (trace_of out)
     ↔ is_Some (findOne_fault E)
       ∨ (findOne_fault E = None ∧ visits w = [] ∧ is_Some (create_fault E)))
  ∧ (In (Log error init_error_text) (trace_of out) → world_of out = w).
Proof.
  cbn zeta. rewrite initializeDatabase_cases.
  destruct (findOne_fault E) as [e1|];
    [|destruct (visits w) as [|r rest] eqn:Hv; [destruct (create_fault E) as [e2|]|]];
    unfold result_of, world_of, trace_of, is_Some;
    cbn [fst snd set_visits visitCache]; repeat split; cbn; intros; break_cases.
Qed.

Lemma initializeDatabase_swallows_errors_witness :
  world_of (initializeDatabase env_read_fails w_empty) = w_empty.
Proof.
  destruct (initializeDatabase_swallows_errors env_read_fails w_empty)
    as (_ & _ & _ & Hsame).
  apply Hsame. simpl. auto.
Defined.

(** ** The time-to-live window *)

(** A call that wrote to the cache went through the whole cold path. *)
Lemma wrote_means_refreshed (E : Env) (w : World) (n : Z) :
  cache_writes (trace_of (updateVisitCount E w)) = [n] →
  n = count (next_visit (visits w))
  ∧ result_of (updateVisitCount E w) = Ok n
  ∧ world_of (updateVisitCount E w) = refreshed E w.
Proof.
  destruct (updateVisitCount_outcome E w) as [k Hg Hk | e tr Hc Hf Hw | Hc Hf];
    unfold result_of, world_of, trace_of; cbn [fst snd].
  - discriminate.
  - rewrite Hw. discriminate.
  - rewrite cache_writes_refresh. by intros [= <-].
Qed.

Lemma record_count_refreshed (E : Env) (w : World) :
  record_count (refreshed E w) = Some (count (next_visit (visits w))).
Proof. unfold refreshed, record_count. cbn [visits]. by destruct (visits w). Qed.

(** X4 - the warm window: once a call has written a non-zero count [n]
    into the cache at clock [T], every call whose cache read happens no
    later than [T] plus 600 seconds returns [n] again and touches neither
    store nor cache; the counter stands still, whatever the store would
    have answered. *)
Theorem warm_window (E1 E2 : Env) (w : World) (n : Z) :
  cache_writes (trace_of (updateVisitCount E1 w)) = [n] →
  n ≠ 0 →
  now_get E2 ≤ now_set E1 + 600 * 1000 →
  let w1 := world_of (updateVisitCount E1 w) in
  updateVisitCount E2 w1 = (Ok n, w1, [CacheGet visitCountKey]).
Proof.
  intros Hwrote Hn Hclock w1.
  destruct (wrote_means_refreshed _ _ _ Hwrote) as (Hcount & _ & Hw1).
  subst w1. rewrite Hw1, updateVisitCount_cases.
  assert (Hget : (NodeCache.get (now_get E2) visitCountKey
                    (visitCache (refreshed E1 w))).1 = Some n).
  { unfold refreshed. cbn [visitCache]. rewrite get_set_live by exact Hclock.
    by rewrite <- Hcount. }
  rewrite Hget. apply truthy_nonzero in Hn. by rewrite Hn.
Qed.

Lemma warm_window_witness :
  let w1 := world_of (updateVisitCount (no_faults 1000 1005) w41) in
  updateVisitCount env_read_fails w1 = (Ok 42, w1, [CacheGet visitCountKey]).
Proof.
  apply (warm_window (no_faults 1000 1005) env_read_fails w41 42);
    [reflexivity | lia | simpl; lia].
Defined.

(** X5 - expiry: once a call has written [n] into the cache at a clock
    [T >= 0], a call whose cache read happens later than [T] plus 600
    seconds, and whose store calls succeed, goes to the store again: it
    persists, caches and returns [n] incremented once more, which is
    [n + 1] for every [n] from [-2^53] up to [2^53 - 1]. *)
Theorem expiry_refreshes (E1 E2 : Env) (w : World) (n : Z) :
  cache_writes (trace_of (updateVisitCount E1 w)) = [n] →
  0 ≤ now_set E1 →
  now_set E1 + 600 * 1000 < now_get E2 →
  store_failure E2 = None →
  let out := updateVisitCount E2 (world_of (updateVisitCount E1 w)) in
  result_of out = Ok (js_incr n)
  ∧ record_count (world_of out) = Some (js_incr n)
  ∧ cache_writes (trace_of out) = [js_incr n]
  ∧ (safe n → js_incr n = n + 1).
Proof.
  intros Hwrote HT Hclock Hstore out.
  destruct (wrote_means_refreshed _ _ _ Hwrote) as (Hcount & _ & Hw1).
  subst out. rewrite Hw1.
  assert (Hcold : cache_cold (now_get E2) (visitCache (refreshed E1 w)) = true).
  { unfold cache_cold, refreshed. cbn [visitCache].
    by rewrite get_set_expired. }
  assert (Hnext : count (next_visit (visits (refreshed E1 w))) = js_incr n).
  { rewrite next_visit_count, record_count_refreshed. cbn [default].
    by rewrite <- Hcount. }
  destruct (updateVisitCount_outcome E2 (refreshed E1 w))
    as [k Hg Hk | e tr Hc Hf Hw | Hc Hf];
    unfold result_of, world_of, trace_of; cbn [fst snd].
  - unfold cache_cold in Hcold. rewrite Hg in Hcold.
    apply truthy_nonzero in Hk. by rewrite Hk in Hcold.
  - congruence.
  - rewrite record_count_refreshed, cache_writes_refresh, Hnext.
    repeat split. apply js_incr_safe.
Qed.

Lemma expiry_refreshes_witness :
  let out := updateVisitCount (no_faults 601006 601007)
               (world_of (updateVisitCount (no_faults 1000 1005) w41)) in
  result_of out = Ok 43
  ∧ record_count (world_of out) = Some 43
  ∧ cache_writes (trace_of out) = [43].
Proof.
  destruct (expiry_refreshes (no_faults 1000 1005) (no_faults 601006 601007) w41 42)
    as (Hres & Hrec & Hwr & _);
    [reflexivity | simpl; lia | simpl; lia | reflexivity |].
  exact (conj Hres (conj Hrec Hwr)).
Defined.

(** Beyond the exact range the count persisted after expiry is the same. *)
Example expiry_at_two53 :
  let out := updateVisitCount (no_faults 601006 601007)
               (world_of (updateVisitCount (no_faults 1000 1005) w_big)) in
  result_of out = Ok two53 ∧ record_count (world_of out) = Some two53.
Proof. split; reflexivity. Qed.

(** ** Cache and store stay in step *)

Lemma dropped_coherent (now : Z) (w : World) : coherent w → coherent (dropped now w).
Proof.
  unfold coherent, dropped. cbn [visitCache set_visitCache].
  intros Hco.
  destruct (get_same_key visitCountKey (visitCache w) now) as [-> | ->]; done.
Qed.

Lemma step_coherent (w : World) (op : Op) : coherent w → coherent (step w op).
Proof.
  intros Hco. destruct op as [E | E]; unfold step.
  - unfold coherent in *. rewrite initializeDatabase_cases.
    destruct (findOne_fault E); [exact Hco|].
    destruct (visits w) as [|r rest] eqn:Hv; [|exact Hco].
    destruct (create_fault E); [exact Hco|].
    unfold world_of. cbn [fst snd set_visits visitCache].
    destruct (visitCache w !! visitCountKey) as [e|]; [|exact I].
    unfold record_count in Hco. rewrite Hv in Hco. discriminate.
  - destruct (updateVisitCount_outcome E w) as [k Hg Hk | e tr Hc Hf Hw | Hc Hf];
      unfold world_of; cbn [fst snd]; [exact Hco | by apply dropped_coherent |].
    unfold coherent. rewrite record_count_refreshed. unfold refreshed, NodeCache.set.
    cbn [visitCache]. by rewrite lookup_insert_eq.
Qed.

Lemma run_coherent (ops : list Op) (w : World) : coherent w → coherent (run ops w).
Proof.
  intros Hco. induction ops as [|op ops IH] using rev_ind; [exact Hco|].
  rewrite run_snoc. by apply step_coherent.
Qed.

(** In a coherent world a successful call returns the persisted count. *)
Lemma coherent_return (E : Env) (w : World) (n : Z) :
  coherent w →
  result_of (updateVisitCount E w) = Ok n →
  record_count (world_of (updateVisitCount E w)) = Some n
  ∧ (n = default 0 (record_count w) ∨ n = js_incr (default 0 (record_count w))).
Proof.
  unfold coherent. intros Hco.
  destruct (updateVisitCount_outcome E w) as [k Hg Hk | e tr Hc Hf Hw | Hc Hf];
    unfold result_of, world_of; cbn [fst snd].
  - intros [= <-]. unfold NodeCache.get in Hg.
    destruct (visitCache w !! visitCountKey) as [e|]; [|discriminate].
    destruct (NodeCache.expired (now_get E) e); [discriminate|].
    injection Hg as <-. rewrite Hco. split; [reflexivity | by left].
  - discriminate.
  - intros [= <-]. rewrite record_count_refreshed. split; [reflexivity|].
    right. apply next_visit_count.
Qed.

(** A call that throws has not touched the store. *)
Lemma throw_keeps_store (E : Env) (w : World) (e : Error) :
  result_of (updateVisitCount E w) = Throw e →
  world_of (updateVisitCount E w) = dropped (now_get E) w
  ∧ cache_writes (trace_of (updateVisitCount E w)) = [].
Proof.
  destruct (updateVisitCount E w) as [[r w1] tr] eqn:Hrun.
  unfold result_of, world_of, trace_of. cbn [fst snd]. intros ->.
  by destruct (throw_leaves_world _ _ _ _ _ Hrun) as (-> & -> & _).
Qed.

(** X6 - cache and store in step: if the cache entry, when there is one,
    holds the count of the record (an empty cache at start-up does), this
    stays so after every sequence of [initializeDatabase] and
    [updateVisitCount] calls run one after the other, failed ones
    included, and every value a call then returns is the count persisted
    at that moment; a call that throws leaves the store as it was and
    writes nothing into the cache. *)
Theorem cache_mirrors_store (ops : list Op) (E : Env) (w : World) :
  coherent w →
  let out := updateVisitCount E (run ops w) in
  coherent (run ops w)
  ∧ coherent (world_of out)
  ∧ match result_of out with
    | Ok n => record_count (world_of out) = Some n
    | Throw _ =>
        visits (world_of out) = visits (run ops w)
        ∧ cache_writes (trace_of out) = []
    end.
Proof.
  intros Hco out. pose proof (run_coherent ops w Hco) as Hmid.
  split; [exact Hmid|]. split; [exact (step_coherent _ (OpVisit E) Hmid)|].
  subst out. destruct (result_of (updateVisitCount E (run ops w))) as [n | e] eqn:Hr.
  - by destruct (coherent_return E _ n Hmid Hr).
  - destruct (throw_keeps_store _ _ _ Hr) as [-> ->]. by split.
Qed.

Lemma cache_mirrors_store_witness :
  let out := updateVisitCount env_late_read_fails (run [OpVisit (no_faults 1000 1005)] w41) in
  coherent (run [OpVisit (no_faults 1000 1005)] w41)
  ∧ coherent (world_of out)
  ∧ visits (world_of out) = visits (run [OpVisit (no_faults 1000 1005)] w41)
  ∧ cache_writes (trace_of out) = [].
Proof.
  destruct (cache_mirrors_store [OpVisit (no_faults 1000 1005)] env_late_read_fails w41 I)
    as (H1 & H2 & H3).
  exact (conj H1 (conj H2 H3)).
Defined.

(** Outside that condition a hit serves what the cache holds, not the store. *)
Example stale_cache_run :
  result_of (updateVisitCount (no_faults 0 0)
    {| visits := [{| row_id := 1%nat; row_count := 5 |}];
       visitCache := {[ visitCountKey := {| NodeCache.v := 100; NodeCache.t := 9000 |} ]} |})
  = Ok 100.
Proof. reflexivity. Qed.

(** ** Requests in a row *)

Lemma serve_cons (E : Env) (rest : list Env) (w : World) :
  serve (E :: rest) w =
    (fst (serve rest (world_of (updateVisitCount E w))),
     (trace_of (updateVisitCount E w) ++ reply_events (result_of (updateVisitCount E w)))
       ++ snd (serve rest (world_of (updateVisitCount E w)))).
Proof.
  cbn [serve]. rewrite apiVisit_cases.
  by destruct (serve rest (world_of (updateVisitCount E w))).
Qed.

Lemma served_cons (E : Env) (rest : list Env) (w : World) :
  served (E :: rest) w =
    match result_of (updateVisitCount E w) with
    | Ok n => n :: served rest (world_of (updateVisitCount E w))
    | Throw _ => served rest (world_of (updateVisitCount E w))
    end.
Proof.
  unfold served. rewrite serve_cons. cbn [snd].
  rewrite !responses_app, updateVisitCount_silent, visit_counts_app.
  by destruct (result_of (updateVisitCount E w)).
Qed.

(** A gentle list never goes back. *)
Lemma gentle_sorted (base : Z) (l : list Z) :
  gentle base l → Sorted Z.le (base :: l).
Proof.
  revert base. induction l as [|a rest IH]; intros base Hg.
  - repeat constructor.
  - destruct Hg as [Hstep Hrest]. constructor; [by apply IH|].
    constructor. destruct Hstep as [-> | ->]; [lia | apply js_incr_bounds].
Qed.

(** X7 - served counts move gently: when the cache entry, if any, holds
    the count of the record (as the empty start-up cache does), the counts
    sent out by [/api/visit] requests handled one after the other, failed
    requests left out, start at the record's count or at its increment
    (1 without a record), and each is the previous one or the previous one
    incremented once (by [js_incr]: plus one in the exact range); listed
    after the starting count they are in non-decreasing order: a count
    served never goes back. *)
Theorem served_counts_gentle (reqs : list Env) (w : World) :
  coherent w →
  gentle (default 0 (record_count w)) (served reqs w)
  ∧ Sorted Z.le (default 0 (record_count w) :: served reqs w).
Proof.
  intros Hco.
  assert (Hg : gentle (default 0 (record_count w)) (served reqs w)).
  { revert w Hco. induction reqs as [|E rest IH]; intros w Hco; [exact I|].
    rewrite served_cons.
    pose proof (step_coherent w (OpVisit E) Hco) as Hco1. cbn [step] in Hco1.
    destruct (result_of (updateVisitCount E w)) as [n | e] eqn:Hr.
    - destruct (coherent_return E w n Hco Hr) as [Hrec Hstep].
      cbn [gentle]. split; [exact Hstep|].
      specialize (IH _ Hco1). by rewrite Hrec in IH.
    - destruct (throw_keeps_store _ _ _ Hr) as [Hw _]. rewrite Hw.
      apply (IH (dropped (now_get E) w)). by apply dropped_coherent. }
  split; [exact Hg | by apply gentle_sorted].
Qed.

Lemma served_counts_gentle_witness :
  gentle (default 0 (record_count w41)) (served sample_reqs w41)
  ∧ Sorted Z.le (default 0 (record_count w41) :: served sample_reqs w41).
Proof. apply (served_counts_gentle sample_reqs w41). exact I. Defined.

Example sample_served : served sample_reqs w41 = [42; 42; 43; 44].
Proof. reflexivity. Qed.

(** X8 - every request is answered: a row of [/api/visit] requests yields
    exactly as many responses as there are requests, whatever fails. *)
Theorem one_reply_per_request (reqs : list Env) (w : World) :
  length (responses (snd (serve reqs w))) = length reqs.
Proof.
  revert w. induction reqs as [|E rest IH]; intros w; [reflexivity|].
  rewrite serve_cons. cbn [snd].
  rewrite !responses_app, updateVisitCount_silent, !length_app, IH.
  by destruct (result_of (updateVisitCount E w)).
Qed.

(** X9 - the counter counts cold requests: over [/api/visit] requests
    handled one after the other, none starting before the previous one
    has been answered, and as long as the count stays within the exact
    range (it starts at [-2^53] or above and could not pass [2^53] even
    if every request incremented it), the persisted count (0 without a
    record) grows by exactly the number of cache writes, one per request
    that went through the store successfully, and so by no more than the
    number of requests. *)
Theorem persisted_increments (reqs : list Env) (w : World) :
  - two53 ≤ default 0 (record_count w) →
  default 0 (record_count w) + Z.of_nat (length reqs) ≤ two53 →
  default 0 (record_count (fst (serve reqs w)))
  = default 0 (record_count w) + Z.of_nat (length (cache_writes (snd (serve reqs w))))
  ∧ (length (cache_writes (snd (serve reqs w))) ≤ length reqs)%nat.
Proof.
  revert w. induction reqs as [|E rest IH]; intros w Hlo Hhi.
  - cbn. split; lia.
  - rewrite serve_cons. cbn [fst snd length] in *.
    rewrite !cache_writes_app, !length_app.
    assert (Hreply : length (cache_writes
               (reply_events (result_of (updateVisitCount E w)))) = 0%nat)
      by by destruct (result_of (updateVisitCount E w)).
    rewrite Hreply. clear Hreply.
    destruct (updateVisitCount_outcome E w) as [k Hg Hk | e tr Hc Hf Hw | Hc Hf];
      unfold world_of, trace_of; cbn [fst snd].
    + destruct (IH w) as [IHc IHl]; [lia | lia |].
      rewrite IHc. cbn [cache_writes length]. split; lia.
    + destruct (IH (dropped (now_get E) w)) as [IHc IHl];
        [exact Hlo | change (record_count (dropped (now_get E) w)) with (record_count w); lia |].
      rewrite IHc, Hw.
      change (record_count (dropped (now_get E) w)) with (record_count w).
      cbn [length]. split; lia.
    + assert (Hnext : count (next_visit (visits w)) = default 0 (record_count w) + 1).
      { rewrite next_visit_count. apply js_incr_safe. unfold safe. lia. }
      assert (Hrec : default 0 (record_count (refreshed E w))
                     = default 0 (record_count w) + 1)
        by (by rewrite record_count_refreshed, <- Hnext).
      destruct (IH (refreshed E w)) as [IHc IHl]; [lia | lia |].
      rewrite IHc, Hrec, cache_writes_refresh. cbn [length]. split; lia.
Qed.

Lemma persisted_increments_witness :
  default 0 (record_count (fst (serve sample_reqs w41)))
  = default 0 (record_count w41)
    + Z.of_nat (length (cache_writes (snd (serve sample_reqs w41))))
  ∧ (length (cache_writes (snd (serve sample_reqs w41))) ≤ length sample_reqs)%nat.
Proof.
  apply (persisted_increments sample_reqs w41); unfold two53; simpl; lia.
Defined.

Example sample_persisted :
  record_count (fst (serve sample_reqs w41)) = Some 44
  ∧ cache_writes (snd (serve sample_reqs w41)) = [42; 43; 44].
Proof. split; reflexivity. Qed.

(** ** What the operations leave alone *)




Example sample_run_two :
  visits (run sample_ops w_two)
  = [{| row_id := 7%nat; row_count := 43 |}; {| row_id := 9%nat; row_count := 5 |}].
Proof. reflexivity. Qed.

(** ** Start-up and the first visit *)

(** X11 - the first visit is number 1 either way: on an empty collection
    the first successful cold call returns 1, caches 1 and leaves a single
    record with count 1, whether [initializeDatabase] ran before it and
    created the record at 0 (the call then updates it), ran and failed, or
    (being started without being awaited) has not run at all (the call
    then inserts the record). *)
Theorem first_visit_is_one (E0 E : Env) (c : gmap string NodeCache.Entry) :
  cache_cold (now_get E) c = true →
  store_failure E = None →
  let w := {| visits := []; visitCache := c |} in
  let after_init := updateVisitCount E (world_of (initializeDatabase E0 w)) in
  let alone := updateVisitCount E w in
  result_of after_init = Ok 1
  ∧ result_of alone = Ok 1
  ∧ map row_count (visits (world_of after_init)) = [1]
  ∧ map row_count (visits (world_of alone)) = [1]
  ∧ visitCache (world_of after_init) = visitCache (world_of alone)
  ∧ cache_writes (trace_of after_init) = [1]
  ∧ cache_writes (trace_of alone) = [1].
Proof.
  intros Hcold Hstore w after_init alone.
  destruct (store_failure_None E Hstore) as [Hf Hs].
  assert (Hrun : ∀ rows,
            updateVisitCount E {| visits := rows; visitCache := c |}
            = (Ok (count (next_visit rows)),
               refreshed E {| visits := rows; visitCache := c |},
               [CacheGet visitCountKey; StoreFindOne; write_event (next_visit rows);
                CacheSet visitCountKey (count (next_visit rows))])).
  { intros rows. rewrite updateVisitCount_cold by exact Hcold.
    rewrite cold_run_cases, Hf, Hs. reflexivity. }
  assert (Halone : alone = updateVisitCount E {| visits := []; visitCache := c |})
    by reflexivity.
  rewrite Hrun in Halone.
  assert (Hafter : after_init = alone
                   ∨ after_init = updateVisitCount E
                       {| visits := [{| row_id := fresh_oid []; row_count := 0 |}];
                          visitCache := c |}).
  { subst after_init w. rewrite initializeDatabase_cases. cbn [visits].
    destruct (findOne_fault E0); [by left|].
    destruct (create_fault E0); [by left|]. by right. }
  rewrite Hrun in Hafter.
  destruct Hafter as [-> | ->]; rewrite Halone; by repeat split.
Qed.

Lemma first_visit_is_one_witness :
  let w := {| visits := []; visitCache := ∅ |} in
  let after_init := updateVisitCount (no_faults 10 11)
                      (world_of (initializeDatabase (no_faults 0 0) w)) in
  let alone := updateVisitCount (no_faults 10 11) w in
  result_of after_init = Ok 1
  ∧ result_of alone = Ok 1
  ∧ map row_count (visits (world_of after_init)) = [1]
  ∧ map row_count (visits (world_of alone)) = [1]
  ∧ visitCache (world_of after_init) = visitCache (world_of alone)
  ∧ cache_writes (trace_of after_init) = [1]
  ∧ cache_writes (trace_of alone) = [1].
Proof.
  apply (first_visit_is_one (no_faults 0 0) (no_faults 10 11) ∅); reflexivity.
Defined.

(** ** Overlapping calls once the record exists *)

Lemma stored_keeps_length (d : IVisit) (rows : list Row) :
  isNew d = false → length (stored d rows) = length rows.
Proof.
  unfold stored. intros ->. destruct (isModified d); [|reflexivity].
  apply updateOne_length.
Qed.

Lemma resume_keeps_one (id : nat) (t : Task) (w : World) :
  settled t = true →
  length (visits w) = 1%nat →
  settled (resume id t w).1.1 = true ∧ length (visits (resume id t w).1.2) = 1%nat.
Proof.
  intros Hset Hone. destruct t as [E | E | E d | r | E | E | E d |];
    cbn [resume settled] in *; try done.
  - destruct (NodeCache.get (now_get E) visitCountKey (visitCache w)) as [[n|] c];
      [destruct (truthy n)|]; done.
  - destruct (findOne_fault E); [done|].
    destruct (visits w) as [|r rest] eqn:Hv; [discriminate|].
    cbn [fst snd settled incremented hydrate isNew]. by rewrite Hv.
  - destruct (save_fault E); [done|]. cbn [fst snd visits settled].
    split; [done|]. rewrite stored_keeps_length; [exact Hone|].
    by destruct (isNew d).
  - destruct (findOne_fault E); [done|].
    destruct (visits w) as [|r rest] eqn:Hv; [discriminate|].
    cbn [fst snd settled]. by rewrite Hv.
Qed.

(** X12 - overlapping calls keep the record: when the store holds exactly
    one record and no call in flight is about to insert one, then however
    the calls of [updateVisitCount] and [initializeDatabase] are
    interleaved at their [await]s, and whichever of them fail, the store
    holds exactly one record at every moment and no call ever gets to
    insert one. *)
Theorem overlapping_calls_keep_the_record (picks : list (nat * nat))
    (pool : list Task) (w : World) :
  Forall (λ t, settled t = true) pool →
  length (visits w) = 1%nat →
  Forall (λ t, settled t = true) (schedule picks pool w).1.1
  ∧ length (visits (schedule picks pool w).1.2) = 1%nat.
Proof.
  revert pool w. induction picks as [|[i id] rest IH]; intros pool w Hpool Hone;
    [by split|].
  cbn [schedule]. destruct (pool !! i) as [t|] eqn:Hi; [|by apply IH].
  assert (Ht : settled t = true).
  { rewrite Forall_forall in Hpool. apply Hpool. by apply list_elem_of_lookup_2 in Hi. }
  destruct (resume_keeps_one id t w Ht Hone) as [Ht' Hone'].
  destruct (resume id t w) as [[t' w1] tr1]. cbn [fst snd] in *.
  assert (Hpool' : Forall (λ t, settled t = true) (<[i := t']> pool))
    by by apply Forall_insert.
  destruct (IH _ _ Hpool' Hone') as [Hp Hl].
  by destruct (schedule rest (<[i := t']> pool) w1) as [[pool' w2] tr2].
Qed.

Lemma overlapping_calls_keep_the_record_witness :
  Forall (λ t, settled t = true) (schedule taking_turns two_calls w41).1.1
  ∧ length (visits (schedule taking_turns two_calls w41).1.2) = 1%nat.
Proof.
  apply (overlapping_calls_keep_the_record taking_turns two_calls w41);
    [repeat constructor | reflexivity].
Defined.

(** Both overlapping calls read 41 and write 42: one increment is lost. *)
Example overlapping_calls_lose_an_update :
  (schedule taking_turns two_calls w41).1.1
  = [VisitReturned (Ok 42); VisitReturned (Ok 42)]
  ∧ visits (schedule taking_turns two_calls w41).1.2
    = [{| row_id := 7%nat; row_count := 42 |}].
Proof. split; reflexivity. Qed.
